(** * app.py: content extractor and frequency summariser

    A shallow embedding of [src/app.py].  Python strings are sequences of
    Unicode code points, so a string is a list of code points ([N]); ASCII
    constants are written as Rocq string literals through [lit], Hangul
    constants as explicit code points.  The standard-library HTML tokenizer
    is outside the repository: [POnlyParser.feed] is modelled as the fold of
    the three handlers over the event stream the tokenizer delivers. *)

From Stdlib Require Import List NArith ZArith Bool Lia String Ascii.
From Stdlib Require Import Permutation Sorted.
Import ListNotations.

Set Implicit Arguments.

(** ** Strings *)

Definition char := N.
Definition str := list char.

Definition lit (x : string) : str :=
  List.map N_of_ascii (list_ascii_of_string x).

Fixpoint str_eqb (a b : str) : bool :=
  match a, b with
  | [], [] => true
  | x :: a', y :: b' => N.eqb x y && str_eqb a' b'
  | _, _ => false
  end.

Definition str_in (x : str) (l : list str) : bool := existsb (str_eqb x) l.

(** [len(s)] as a Python integer. *)
Definition len {A : Type} (l : list A) : Z := Z.of_nat (List.length l).

Definition SP : char := 32%N.
Definition LBRACKET : char := 91%N.
Definition RBRACKET : char := 93%N.
Definition ELLIPSIS : char := 8230%N.

(** [str.isspace] on one code point; the regular-expression class [\s] on
    text patterns and [str.strip]/[str.split] use the same predicate. *)
Definition isspace (c : char) : bool :=
  ((9 <=? c) && (c <=? 13) || (28 <=? c) && (c <=? 32) || (c =? 133)
   || (c =? 160) || (c =? 5760) || (8192 <=? c) && (c <=? 8202)
   || (c =? 8232) || (c =? 8233) || (c =? 8239) || (c =? 8287)
   || (c =? 12288))%N.

Fixpoint lstrip (t : str) : str :=
  match t with
  | c :: rest => if isspace c then lstrip rest else t
  | [] => []
  end.

Definition rstrip (t : str) : str := rev (lstrip (rev t)).

(** [s.strip()] *)
Definition strip (t : str) : str := rstrip (lstrip t).

(** [sep.join(parts)] *)
Fixpoint join (sep : str) (parts : list str) : str :=
  match parts with
  | [] => []
  | [p] => p
  | p :: rest => p ++ sep ++ join sep rest
  end.

(** [s.split()]: the maximal runs of non-whitespace characters.  [cur] is
    the run being read, reversed. *)
Fixpoint split_ws_aux (cur : str) (t : str) : list str :=
  match t with
  | [] => match cur with [] => [] | _ => [rev cur] end
  | c :: rest =>
      if isspace c
      then match cur with
           | [] => split_ws_aux [] rest
           | _ => rev cur :: split_ws_aux [] rest
           end
      else split_ws_aux (c :: cur) rest
  end.

Definition split_ws (t : str) : list str := split_ws_aux [] t.

(** [l[:n]] for a Python integer [n]: a negative bound counts from the end. *)
Definition slice_to {A : Type} (n : Z) (l : list A) : list A :=
  if (0 <=? n)%Z then firstn (Z.to_nat n) l
  else firstn (List.length l - Z.to_nat (- n)) l.

(** [s.lower()] on one code point.  It is only ever applied to tokens, whose
    characters are Latin letters or Hangul syllables; Hangul has no case. *)
Definition lower_char (c : char) : char :=
  if ((65 <=? c) && (c <=? 90))%N then (c + 32)%N else c.

Definition lower (t : str) : str := List.map lower_char t.

(** ** Regular expressions

    A pattern is represented by its anchored matcher: [m t] is the length
    of the match of the pattern at the start of [t], if there is one.  The
    patterns of the program never match the empty string. *)

Definition matcher := str -> option nat.

(** [re.sub(pattern, repl, t)]: leftmost non-overlapping matches replaced.
    [skip] counts the characters of the current match still to be consumed. *)
Fixpoint re_sub_aux (m : matcher) (repl : str) (skip : nat) (t : str) : str :=
  match t with
  | [] => []
  | c :: rest =>
      match skip with
      | S k => re_sub_aux m repl k rest
      | O =>
          match m t with
          | Some (S k) => repl ++ re_sub_aux m repl k rest
          | _ => c :: re_sub_aux m repl O rest
          end
      end
  end.

Definition re_sub (m : matcher) (repl : str) (t : str) : str :=
  re_sub_aux m repl O t.

(** [re.findall(pattern, t)] for a pattern without groups. *)
Fixpoint re_findall_aux (m : matcher) (skip : nat) (t : str) : list str :=
  match t with
  | [] => []
  | c :: rest =>
      match skip with
      | S k => re_findall_aux m k rest
      | O =>
          match m t with
          | Some (S k) => firstn (S k) t :: re_findall_aux m k rest
          | _ => re_findall_aux m O rest
          end
      end
  end.

Definition re_findall (m : matcher) (t : str) : list str :=
  re_findall_aux m O t.

(** Length of the longest prefix whose characters all satisfy [p]. *)
Fixpoint span_len (p : char -> bool) (t : str) : nat :=
  match t with
  | c :: rest => if p c then S (span_len p rest) else O
  | [] => O
  end.

(** [\s+] *)
Definition re_spaces : matcher := fun t =>
  match span_len isspace t with
  | O => None
  | n => Some n
  end.

(** Position of the first occurrence of [c] in [t]. *)
Fixpoint index_of (c : char) (t : str) : option nat :=
  match t with
  | [] => None
  | x :: rest =>
      if N.eqb x c then Some O
      else match index_of c rest with
           | Some i => Some (S i)
           | None => None
           end
  end.

(** [\[[^\]]+\]]: an opening bracket, one or more characters other than a
    closing bracket, a closing bracket. *)
Definition re_footnote : matcher := fun t =>
  match t with
  | c :: rest =>
      if N.eqb c LBRACKET
      then match index_of RBRACKET rest with
           | Some (S i) => Some (S (S (S i)))
           | _ => None
           end
      else None
  | [] => None
  end.

Definition is_word_char (c : char) : bool :=
  ((65 <=? c) && (c <=? 90) || (97 <=? c) && (c <=? 122)
   || (44032 <=? c) && (c <=? 55203))%N.

(** [[A-Za-z<U+AC00>-<U+D7A3>]{2,}]: two or more Latin letters or Hangul
    syllables. *)
Definition re_word : matcher := fun t =>
  match span_len is_word_char t with
  | S (S n) => Some (S (S n))
  | _ => None
  end.

Definition is_terminal (c : char) : bool :=
  ((c =? 46) || (c =? 33) || (c =? 63))%N.

(** The lookahead [(?=\s|\[)] on the text after the position. *)
Definition ahead_space_or_bracket (after : str) : bool :=
  match after with
  | c :: _ => isspace c || N.eqb c LBRACKET
  | [] => false
  end.

(** The zero-width pattern of [split_sentences],
    [(?<=[.!?])(?=\s|\[)|(?<=<U+B2E4>\.)(?=\s|\[)], tested at the position
    between [before] (reversed) and [after]. *)
Definition sentence_boundary (before_rev after : str) : bool :=
  (match before_rev with
   | c :: _ => is_terminal c
   | [] => false
   end && ahead_space_or_bracket after)
  ||
  (match before_rev with
   | d :: c :: _ => N.eqb d 46 && N.eqb c 45796
   | _ => false
   end && ahead_space_or_bracket after).

(** [re.split] on that pattern: the text is cut at every position where the
    pattern matches.  [before_rev] is the text read so far and [cur] the
    piece being read, both reversed. *)
Fixpoint re_split_aux (before_rev cur : str) (t : str) : list str :=
  match t with
  | [] => [rev cur]
  | c :: rest =>
      if sentence_boundary before_rev t
      then rev cur :: re_split_aux (c :: before_rev) [c] rest
      else re_split_aux (c :: before_rev) (c :: cur) rest
  end.

Definition re_split_sentences (t : str) : list str := re_split_aux [] [] t.

(** ** Configuration *)

Definition DEFAULT_MAX_SENTENCES : Z := 3.
Definition DEFAULT_TOPK : Z := 5.
Definition MAX_SENT_CHARS : Z := 300.

(** The stopword set: thirty Korean particles and conjunctions, given by
    their code points, and thirty-one English function words.  Only
    membership is ever asked of it. *)
Definition STOPWORDS : list str :=
  [ [44536; 47532; 44256]; [44536; 47084; 45208]; [44536; 47000; 49436];
    [46608; 45716]; [46608; 54620]; [48143]; [46321]; [51060]; [44536];
    [51200]; [44163]; [49688]; [46321; 46321]; [50640]; [51032]; [51008];
    [45716]; [51060]; [44032]; [51012]; [47484]; [51004; 47196]; [47196];
    [50640; 49436]; [48512; 53552]; [44620; 51648]; [46020]; [47564];
    [48372; 45796]; [48372; 45796; 46020] ]%N
  ++ List.map lit
  [ "the"; "a"; "an"; "and"; "or"; "but"; "if"; "then"; "else"; "also";
    "to"; "of"; "in"; "on"; "at"; "for"; "from"; "with"; "by"; "as"; "is";
    "are"; "was"; "were"; "be"; "been"; "being"; "this"; "that"; "these";
    "those" ]%string.

Definition is_stopword (t : str) : bool := str_in t STOPWORDS.

(** ** Sentences and tokens *)

Definition split_sentences (text : str) : list str :=
  let t := strip (re_sub re_spaces [SP] text) in
  match t with
  | [] => []
  | _ =>
      let t := re_sub re_footnote [SP] t in
      let parts := re_split_sentences t in
      List.map strip
        (List.filter (fun p => (2 <? len (strip p))%Z) parts)
  end.

Definition tokenize (text : str) : list str :=
  List.map lower (re_findall re_word text).

(** ** Counters

    A [Counter] keeps its keys in first-insertion order, and [most_common]
    depends on that order, so it is an association list. *)

Definition counter := list (str * Z).

Fixpoint counter_incr (w : str) (c : counter) : counter :=
  match c with
  | [] => [(w, 1%Z)]
  | (k, n) :: rest =>
      if str_eqb k w then (k, (n + 1)%Z) :: rest
      else (k, n) :: counter_incr w rest
  end.

(** [Counter(iterable)] *)
Definition Counter (ws : list str) : counter :=
  fold_left (fun c w => counter_incr w c) ws [].

(** [c.get(w, 0)] *)
Fixpoint counter_get (c : counter) (w : str) : Z :=
  match c with
  | [] => 0%Z
  | (k, n) :: rest => if str_eqb k w then n else counter_get rest w
  end.

(** ** Sorting

    [sorted] is stable, so its result is determined by the input order and
    the key order.  [precedes y x] says that [y] must come strictly before
    [x]; an element is inserted in front of the first one that need not
    precede it, which keeps equal elements in their input order. *)

Section Sorting.
Variable A : Type.
Variable precedes : A -> A -> bool.

Fixpoint insert_by (x : A) (l : list A) : list A :=
  match l with
  | [] => [x]
  | y :: l' => if precedes y x then y :: insert_by x l' else x :: l
  end.

Fixpoint sort_by (l : list A) : list A :=
  match l with
  | [] => []
  | x :: l' => insert_by x (sort_by l')
  end.
End Sorting.

(** [sorted(l, key=key, reverse=True)] *)
Definition sorted_desc_by {A : Type} (key : A -> Z) (l : list A) : list A :=
  sort_by (fun y x => (key x <? key y)%Z) l.

(** [sorted(l)] on indices *)
Definition sorted_nat (l : list nat) : list nat :=
  sort_by (fun y x => Nat.ltb y x) l.

(** [c.most_common(k)]: [heapq.nlargest(k, items, key=count)], that is
    [sorted(items, key=count, reverse=True)[:k]] for [k >= 0] and the empty
    list for a negative [k]. *)
Definition most_common (c : counter) (k : Z) : list (str * Z) :=
  firstn (Z.to_nat k) (sorted_desc_by (fun it => snd it) c).

(** ** Keywords and summary *)

Definition content_tokens (text : str) : list str :=
  List.filter (fun t => negb (is_stopword t)) (tokenize text).

Definition keyword_topk (text : str) (k : Z) : list str * counter :=
  let freq := Counter (content_tokens text) in
  (List.map fst (most_common freq k), freq).

Definition sum_Z (l : list Z) : Z := fold_right Z.add 0%Z l.

(** The score of one sentence against the frequency table of the text. *)
Definition sentence_score (global_freq : counter) (s : str) : Z :=
  sum_Z (List.map (counter_get global_freq) (content_tokens s)).

Definition top_indices (scores : list Z) (max_sentences : Z) : list nat :=
  sorted_nat
    (slice_to max_sentences
       (sorted_desc_by (fun i => nth i scores 0%Z)
          (seq 0 (List.length scores)))).

(** [s if len(s) <= budget else s[:budget-1] + ellipsis] *)
Definition clip (budget : Z) (s : str) : str :=
  if (len s <=? budget)%Z then s
  else slice_to (budget - 1) s ++ [ELLIPSIS].

(** [summarize] with the module constant [MAX_SENT_CHARS] as a parameter:
    the source documents it as a setting, 0 switching truncation off. *)
Definition summarize_with (budget : Z) (text : str) (max_sentences : Z) : str :=
  let sents := split_sentences text in
  match sents with
  | [] => []
  | _ =>
      if (len sents <=? max_sentences)%Z then
        let out := join [SP] sents in
        if (budget <=? 0)%Z then out else clip budget out
      else
        let global_freq := Counter (content_tokens text) in
        let scores := List.map (sentence_score global_freq) sents in
        let top_idx := top_indices scores max_sentences in
        let chosen := List.map (fun i => nth i sents []) top_idx in
        let chosen :=
          if (0 <? budget)%Z then List.map (clip budget) chosen else chosen in
        join [SP] chosen
  end.

Definition summarize (text : str) (max_sentences : Z) : str :=
  summarize_with MAX_SENT_CHARS text max_sentences.

(** ** The paragraph parser *)

Definition attrs := list (str * option str).

(** What the tokenizer hands to the handlers.  A self-closing tag arrives
    as a start tag followed by an end tag. *)
Inductive event : Type :=
| StartTag (tag : str) (a : attrs)
| EndTag (tag : str)
| Data (data : str).

Record parser : Type := mkParser {
  in_title : bool;
  in_p : bool;
  in_content : bool;
  content_div_depth : Z;
  skip_stack : list str;
  exclude_stack : list str;
  title_parts : list str;
  paras : list str
}.

(** [POnlyParser.__init__] *)
Definition new_parser : parser :=
  mkParser false false false 0 [] [] [] [].

Definition set_in_title (b : bool) (p : parser) : parser :=
  mkParser b (in_p p) (in_content p) (content_div_depth p)
    (skip_stack p) (exclude_stack p) (title_parts p) (paras p).
Definition set_in_p (b : bool) (p : parser) : parser :=
  mkParser (in_title p) b (in_content p) (content_div_depth p)
    (skip_stack p) (exclude_stack p) (title_parts p) (paras p).
Definition set_in_content (b : bool) (p : parser) : parser :=
  mkParser (in_title p) (in_p p) b (content_div_depth p)
    (skip_stack p) (exclude_stack p) (title_parts p) (paras p).
Definition set_content_div_depth (d : Z) (p : parser) : parser :=
  mkParser (in_title p) (in_p p) (in_content p) d
    (skip_stack p) (exclude_stack p) (title_parts p) (paras p).
Definition set_skip_stack (s : list str) (p : parser) : parser :=
  mkParser (in_title p) (in_p p) (in_content p) (content_div_depth p)
    s (exclude_stack p) (title_parts p) (paras p).
Definition set_exclude_stack (s : list str) (p : parser) : parser :=
  mkParser (in_title p) (in_p p) (in_content p) (content_div_depth p)
    (skip_stack p) s (title_parts p) (paras p).
Definition set_title_parts (s : list str) (p : parser) : parser :=
  mkParser (in_title p) (in_p p) (in_content p) (content_div_depth p)
    (skip_stack p) (exclude_stack p) s (paras p).
Definition set_paras (s : list str) (p : parser) : parser :=
  mkParser (in_title p) (in_p p) (in_content p) (content_div_depth p)
    (skip_stack p) (exclude_stack p) (title_parts p) s.

Module Tag.
Definition script : str := Eval cbv in lit "script".
Definition style : str := Eval cbv in lit "style".
Definition nav : str := Eval cbv in lit "nav".
Definition footer : str := Eval cbv in lit "footer".
Definition aside : str := Eval cbv in lit "aside".
Definition table : str := Eval cbv in lit "table".
Definition div : str := Eval cbv in lit "div".
Definition ol : str := Eval cbv in lit "ol".
Definition ul : str := Eval cbv in lit "ul".
Definition sup : str := Eval cbv in lit "sup".
Definition p : str := Eval cbv in lit "p".
Definition title : str := Eval cbv in lit "title".
End Tag.

Module Attr.
Definition class : str := Eval cbv in lit "class".
Definition id : str := Eval cbv in lit "id".
End Attr.

(** [_get]: the value of the first attribute called [key]; a missing
    attribute and an attribute without a value both give the empty string. *)
Fixpoint get_attr (a : attrs) (key : str) : str :=
  match a with
  | [] => []
  | (k, v) :: rest =>
      if str_eqb k key
      then match v with Some x => x | None => [] end
      else get_attr rest key
  end.

(** [_has_class] *)
Definition has_class (a : attrs) (name : str) : bool :=
  let cls := get_attr a Attr.class in
  str_in name (match cls with [] => [] | _ => split_ws cls end).

(** [_has_any_class] *)
Definition has_any_class (a : attrs) (names : list str) : bool :=
  let cls := get_attr a Attr.class in
  match cls with
  | [] => false
  | _ => let s := split_ws cls in existsb (fun n => str_in n s) names
  end.

(** The arms of the [if]/[elif] chain that decides exclusion, in source
    order; [exclude_arm_of] is the arm whose guard is the first to hold. *)
Inductive exclude_arm : Type :=
| ArmContainer | ArmDiv | ArmList | ArmTableClass | ArmSup | ArmNone.

Definition exclude_arm_of (tag : str) : exclude_arm :=
  if str_in tag [Tag.nav; Tag.footer; Tag.aside; Tag.table] then ArmContainer
  else if str_eqb tag Tag.div then ArmDiv
  else if str_in tag [Tag.ol; Tag.ul] then ArmList
  else if str_eqb tag Tag.table then ArmTableClass
  else if str_eqb tag Tag.sup then ArmSup
  else ArmNone.

Definition arm_excludes (arm : exclude_arm) (a : attrs) : bool :=
  match arm with
  | ArmContainer => true
  | ArmDiv =>
      has_class a (lit "navbox")
      || has_class a (lit "mw-references-wrap")
      || has_class a (lit "hatnote")
      || str_in (get_attr a Attr.id) [lit "toc"; lit "catlinks"]
  | ArmList => has_class a (lit "references")
  | ArmTableClass => has_class a (lit "infobox") || has_class a (lit "navbox")
  | ArmSup => has_class a (lit "reference")
  | ArmNone => false
  end.

Definition is_excluded (tag : str) (a : attrs) : bool :=
  arm_excludes (exclude_arm_of tag) a.

Definition is_skip_tag (tag : str) : bool :=
  str_in tag [Tag.script; Tag.style].

Definition is_content_root (a : attrs) : bool :=
  str_in (get_attr a Attr.id) [lit "mw-content-text"; lit "content"]
  || has_any_class a
       [lit "mw-parser-output"; lit "mw-body"; lit "mw-body-content";
        lit "content"].

(** Python lists used as stacks: [append] pushes at the end, [s[-1]] is the
    last element and [pop()] removes it. *)
Definition push (tag : str) (s : list str) : list str := s ++ [tag].

Definition top_is (s : list str) (tag : str) : bool :=
  match s with
  | [] => false
  | _ => str_eqb (last s []) tag
  end.

Definition nonempty {A : Type} (l : list A) : bool :=
  match l with [] => false | _ => true end.

(** The guard shared by [handle_starttag] and [handle_data]:
    [self.in_content or self.content_div_depth == 0]. *)
Definition in_scope (p : parser) : bool :=
  in_content p || (content_div_depth p =? 0)%Z.

Definition handle_starttag (p : parser) (tag : str) (a : attrs) : parser :=
  if is_skip_tag tag then set_skip_stack (push tag (skip_stack p)) p
  else if is_excluded tag a
  then set_exclude_stack (push tag (exclude_stack p)) p
  else
    let p :=
      if str_eqb tag Tag.div then
        if is_content_root a then
          set_in_content true
            (set_content_div_depth (content_div_depth p + 1) p)
        else if in_content p then
          set_content_div_depth (content_div_depth p + 1) p
        else p
      else p in
    let p :=
      if str_eqb tag Tag.p && in_scope p && negb (nonempty (exclude_stack p))
      then set_in_p true p else p in
    if str_eqb tag Tag.title then set_in_title true p else p.

Definition handle_endtag (p : parser) (tag : str) : parser :=
  if is_skip_tag tag then
    if top_is (skip_stack p) tag
    then set_skip_stack (removelast (skip_stack p)) p
    else p
  else
    let p :=
      if top_is (exclude_stack p) tag
      then set_exclude_stack (removelast (exclude_stack p)) p
      else p in
    let p :=
      if in_content p && str_eqb tag Tag.div then
        let p :=
          if (0 <? content_div_depth p)%Z
          then set_content_div_depth (content_div_depth p - 1) p
          else p in
        if (content_div_depth p =? 0)%Z then set_in_content false p else p
      else p in
    let p := if str_eqb tag Tag.p then set_in_p false p else p in
    if str_eqb tag Tag.title then set_in_title false p else p.

Definition handle_data (p : parser) (data : str) : parser :=
  if nonempty (skip_stack p) || nonempty (exclude_stack p) then p
  else
    match strip data with
    | [] => p
    | txt =>
        if in_title p then set_title_parts (title_parts p ++ [txt]) p
        else if in_p p && in_scope p then set_paras (paras p ++ [txt]) p
        else p
    end.

Definition handle (p : parser) (e : event) : parser :=
  match e with
  | StartTag tag a => handle_starttag p tag a
  | EndTag tag => handle_endtag p tag
  | Data data => handle_data p data
  end.

(** The parser after the tokenizer has delivered [evs]. *)
Definition run (p : parser) (evs : list event) : parser :=
  fold_left handle evs p.

Definition feed (evs : list event) : parser := run new_parser evs.

Definition get_title (p : parser) : str := strip (join [SP] (title_parts p)).
Definition get_text (p : parser) : str := strip (join [SP] (paras p)).

(** ** One document

    Fetching and tokenizing may raise; an exception carries the text that
    [str(e)] gives. *)

Inductive outcome (A : Type) : Type :=
| Ret (a : A)
| Raise (msg : str).

Arguments Ret {A} a.
Arguments Raise {A} msg.

Definition bind {A B : Type} (m : outcome A) (k : A -> outcome B) : outcome B :=
  match m with
  | Ret a => k a
  | Raise e => Raise e
  end.

(** [try: body  except Exception as e: handler(e)] *)
Definition try_except {A : Type} (body : outcome A)
    (handler : str -> outcome A) : outcome A :=
  match body with
  | Ret a => Ret a
  | Raise e => handler e
  end.

Notation "x <- m ;; k" := (bind m (fun x => k))
  (at level 61, m at next level, right associativity).

Record result : Type := mkResult {
  r_url : str;
  r_title : str;
  r_keywords : str;
  r_summary : str;
  r_ok : bool;
  r_freq : counter
}.

(** The fixed marker returned when no body text was extracted. *)
Definition EXTRACTION_FAILED : str :=
  [40; 48376; 47928; 32; 52628; 52636; 32; 49892; 54056; 41]%N.

(** The marker built from an exception: an opening parenthesis, the
    Korean word for error, a colon, a space, [str(e)] and a closing
    parenthesis. *)
Definition error_marker (e : str) : str :=
  [40; 50640; 47084; 58; 32]%N ++ e ++ [41%N].

Section Process.
(** [fetch_html] performs the network request and [html_events] is the
    standard-library tokenizer; both are outside the program. *)
Variable fetch_html : str -> outcome str.
Variable html_events : str -> outcome (list event).

Definition process_one (url : str) (max_sentences topk : Z) : outcome result :=
  try_except
    (html <- fetch_html url ;;
     evs <- html_events html ;;
     let p := feed evs in
     let title := get_title p in
     let body := get_text p in
     match body with
     | [] => Ret (mkResult url title [] EXTRACTION_FAILED false [])
     | _ =>
         let (kws, freq) := keyword_topk body topk in
         let summ := summarize body max_sentences in
         Ret (mkResult url title (join (lit ", ") kws) summ true freq)
     end)
    (fun e => Ret (mkResult url [] [] (error_marker e) false [])).
End Process.

(** ** The response encoding

    [fetch_html] decodes the response with the encoding named in the
    [Content-Type] header.  The pattern [charset=([^\s;]+)] is searched
    with [re.I]: each letter matches in either case, and the letter s also
    matches the long s (U+017F). *)

Definition matches_ci (pat c : char) : bool :=
  N.eqb (lower_char c) pat || (N.eqb pat 115 && N.eqb c 383).

(** The text after [pat], when [t] starts with [pat] up to case. *)
Fixpoint after_prefix_ci (pat t : str) : option str :=
  match pat, t with
  | [], _ => Some t
  | p :: pat', c :: t' =>
      if matches_ci p c then after_prefix_ci pat' t' else None
  | _ :: _, [] => None
  end.

Definition is_charset_char (c : char) : bool :=
  negb (isspace c) && negb (N.eqb c 59).

(** [re.search(r"charset=([^\s;]+)", ct, re.I)], group 1 of the leftmost
    match. *)
Fixpoint charset_search (ct : str) : option str :=
  match ct with
  | [] => None
  | _ :: rest =>
      match after_prefix_ci (lit "charset=") ct with
      | Some after =>
          match span_len is_charset_char after with
          | O => charset_search rest
          | n => Some (firstn n after)
          end
      | None => charset_search rest
      end
  end.

(** [enc = m.group(1) if m else "utf-8"] *)
Definition response_encoding (ct : str) : str :=
  match charset_search ct with
  | Some enc => enc
  | None => lit "utf-8"
  end.

(** ** The batch

    The interactive part of the program reads the URL list from a text
    area, processes each URL in turn and adds up the frequency tables of
    the results. *)

(** The line boundaries of [str.splitlines]. *)
Definition is_linebreak (c : char) : bool :=
  ((10 <=? c) && (c <=? 13) || (28 <=? c) && (c <=? 30) || (c =? 133)
   || (c =? 8232) || (c =? 8233))%N.

(** [s.splitlines()]: a carriage return followed by a line feed is one
    boundary, and no empty line is reported after the last boundary. *)
Fixpoint splitlines_aux (cur : str) (t : str) : list str :=
  match t with
  | [] => match cur with [] => [] | _ => [rev cur] end
  | c :: rest =>
      if is_linebreak c then
        rev cur ::
          match rest with
          | d :: rest' =>
              if N.eqb c 13 && N.eqb d 10 then splitlines_aux [] rest'
              else splitlines_aux [] rest
          | [] => splitlines_aux [] rest
          end
      else splitlines_aux (c :: cur) rest
  end.

Definition splitlines (t : str) : list str := splitlines_aux [] t.

(** [u.startswith("#")] *)
Definition starts_with_hash (u : str) : bool :=
  match u with
  | c :: _ => N.eqb c 35
  | [] => false
  end.

(** [[u.strip() for u in urls_text.splitlines()
      if u.strip() and not u.strip().startswith("#")]] *)
Definition parse_urls (urls_text : str) : list str :=
  List.map strip
    (List.filter
       (fun u => nonempty (strip u) && negb (starts_with_hash (strip u)))
       (splitlines urls_text)).

(** A list comprehension over a function that may raise: the elements are
    computed in order and the first exception ends the computation. *)
Fixpoint map_outcome {A B : Type} (f : A -> outcome B) (l : list A)
    : outcome (list B) :=
  match l with
  | [] => Ret []
  | x :: rest =>
      y <- f x ;;
      ys <- map_outcome f rest ;;
      Ret (y :: ys)
  end.

(** [results = [process_one(u, max_sentences=..., topk=...) for u in urls]] *)
Definition process_all (fetch_html : str -> outcome str)
    (html_events : str -> outcome (list event))
    (urls : list str) (max_sentences topk : Z) : outcome (list result) :=
  map_outcome
    (fun u => process_one fetch_html html_events u max_sentences topk) urls.

(** [c[w] = n]: an existing key keeps its place, a new key goes last. *)
Fixpoint counter_set (c : counter) (w : str) (n : Z) : counter :=
  match c with
  | [] => [(w, n)]
  | (k, m) :: rest =>
      if str_eqb k w then (k, n) :: rest
      else (k, m) :: counter_set rest w n
  end.

(** [total.update(other)] for a counter [other]: an empty [total] takes the
    entries of [other] as they are, otherwise each count is added. *)
Definition counter_update (total other : counter) : counter :=
  match total with
  | [] => other
  | _ =>
      fold_left
        (fun t (it : str * Z) =>
           counter_set t (fst it) (snd it + counter_get t (fst it))%Z)
        other total
  end.

(** [total = Counter(); for r in results: total.update(r["freq"])] *)
Definition total_frequencies (results : list result) : counter :=
  fold_left (fun total r => counter_update total (r_freq r)) results [].

(** [total.most_common(15)] *)
Definition top_items (results : list result) : list (str * Z) :=
  most_common (total_frequencies results) 15.

(** ** Vocabulary of the properties *)

(** [stays_inside t d evs]: an element [t] has been opened, [d] further
    elements of that name are open inside it, and [evs] does not close it:
    every end tag named [t] in [evs] closes an inner element. *)
Definition depth_step (t : str) (d : nat) (e : event) : option nat :=
  match e with
  | StartTag t' _ => Some (if str_eqb t' t then S d else d)
  | EndTag t' =>
      if str_eqb t' t
      then match d with O => None | S d' => Some d' end
      else Some d
  | Data _ => Some d
  end.

Fixpoint stays_inside (t : str) (d : nat) (evs : list event) : bool :=
  match evs with
  | [] => true
  | e :: rest =>
      match depth_step t d e with
      | Some d' => stays_inside t d' rest
      | None => false
      end
  end.

(** Number of entries named [t] on a stack. *)
Definition occ (t : str) (s : list str) : nat :=
  List.length (List.filter (str_eqb t) s).

(** The tags that the first arm of the exclusion chain excludes whatever
    their attributes. *)
Definition is_container_tag (t : str) : bool :=
  str_in t [Tag.nav; Tag.footer; Tag.aside; Tag.table].

(** The content flag is set exactly when the content depth is positive. *)
Definition depth_consistent (p : parser) : Prop :=
  (0 <= content_div_depth p)%Z
  /\ (in_content p = true <-> (0 < content_div_depth p)%Z).

Definition keys (c : counter) : list str := List.map fst c.

Definition infix (s t : str) : Prop := exists a c, t = a ++ s ++ c.

(** A bracketed span in the widest sense: an opening bracket and, somewhere
    after it, a closing bracket, whatever lies between them, even nothing. *)
Definition bracket_span (s : str) : Prop :=
  exists a b c, s = a ++ LBRACKET :: b ++ RBRACKET :: c.

(** A span as the footnote pattern reads it: between the brackets there is
    at least one character and no closing bracket. *)
Definition footnote_span (s : str) : Prop :=
  exists a b c,
    s = a ++ LBRACKET :: b ++ RBRACKET :: c /\ b <> [] /\ ~ In RBRACKET b.

(** No position of [t] starts a match of the footnote pattern. *)
Fixpoint footnote_free (t : str) : bool :=
  match t with
  | [] => true
  | _ :: rest =>
      match re_footnote t with
      | Some _ => false
      | None => footnote_free rest
      end
  end.

(** ** Example inputs *)

(** The body of the worked example of the specification. *)
Definition cats_body : str :=
  lit "Cats are mammals. Dogs are mammals too. Cats and dogs are pets.".

Definition two_sentences : str := lit "It rains. It pours.".

Definition footnoted_text : str :=
  lit "A note[1] goes[a[b]c]. Next one!".

(** The page
    [<div id="content"><p>in</p></div><p>after</p>]. *)
Definition page_after_container : list event :=
  [ StartTag Tag.div [(Attr.id, Some (lit "content"))];
    StartTag Tag.p []; Data (lit "in"); EndTag Tag.p;
    EndTag Tag.div;
    StartTag Tag.p []; Data (lit "after"); EndTag Tag.p ].

(** The page
    [<div class="navbox"><div>x</div><p>leak</p></div>]. *)
Definition page_navbox_inner_div : list event :=
  [ StartTag Tag.div [(Attr.class, Some (lit "navbox"))];
    StartTag Tag.div []; Data (lit "x"); EndTag Tag.div;
    StartTag Tag.p []; Data (lit "leak"); EndTag Tag.p;
    EndTag Tag.div ].

(** The start of [<div id="content"><p>shown], before a script block. *)
Definition page_script_in_content : list event :=
  [ StartTag Tag.div [(Attr.id, Some (lit "content"))];
    StartTag Tag.p []; Data (lit "shown") ].

(** Inside a table: an inner table that opens and closes, then a
    paragraph. *)
Definition table_inner_events : list event :=
  [ StartTag Tag.table []; EndTag Tag.table; StartTag Tag.p [] ].

(** ** Vocabulary of the further properties *)

(** The characters a token can hold: a lower-case Latin letter or a Hangul
    syllable. *)
Definition is_token_char (c : char) : bool :=
  ((97 <=? c) && (c <=? 122) || (44032 <=? c) && (c <=? 55203))%N.

(** The distinct elements of [ws] in the order of their first occurrence;
    [seen] holds the elements already met. *)
Fixpoint uniq_aux (seen : list str) (ws : list str) : list str :=
  match ws with
  | [] => []
  | w :: rest =>
      if str_in w seen then uniq_aux seen rest
      else w :: uniq_aux (w :: seen) rest
  end.

Definition first_occurrences (ws : list str) : list str := uniq_aux [] ws.

(** The last character of [s] is a full stop, an exclamation mark or a
    question mark. *)
Definition ends_with_terminal (s : str) : bool :=
  match rev s with
  | c :: _ => is_terminal c
  | [] => false
  end.

(** No whitespace at either end. *)
Definition trimmed (f : str) : Prop := lstrip f = f /\ rstrip f = f.

(** [evs] holds no end tag named [t]. *)
Definition no_end_tag (t : str) (evs : list event) : bool :=
  forallb
    (fun e => match e with EndTag t' => negb (str_eqb t' t) | _ => true end)
    evs.

(** The tag names that can open an exclude region. *)
Definition EXCLUDING_TAGS : list str :=
  [Tag.nav; Tag.footer; Tag.aside; Tag.table; Tag.div; Tag.ol; Tag.ul;
   Tag.sup].

(** While a text is being split, the piece being read ends where the text
    read so far ends. *)
Definition piece_follows (cur before_rev : str) : Prop :=
  match cur with
  | [] => before_rev = []
  | c :: _ => exists r, before_rev = c :: r
  end.

(** A URL list of four lines: a padded URL, a comment, a blank line and
    a URL. *)
Definition sample_url_list : str :=
  [32; 104; 116; 116; 112; 58; 47; 47; 97; 32; 13; 10; 35; 32; 110; 111;
   10; 10; 104; 116; 116; 112; 58; 47; 47; 98]%N.

(** The text that [split_sentences] cuts into sentences: whitespace
    collapsed, the ends stripped, footnote spans replaced. *)
Definition segmented_text (text : str) : str :=
  re_sub re_footnote [SP] (strip (re_sub re_spaces [SP] text)).

(** A batch of three documents: two pages that are fetched, and one whose
    fetch fails.  The tokenizer of the example delivers a page as one
    paragraph. *)
Definition sample_urls : list str := [lit "u1"; lit "u2"; lit "u3"].

Definition sample_fetch (url : str) : outcome str :=
  if str_eqb url (lit "u1") then Ret (lit "Cats are mammals. Cats purr.")
  else if str_eqb url (lit "u2") then Ret (lit "Dogs chase cats.")
  else Raise (lit "timed out").

Definition sample_tokenizer (html : str) : outcome (list event) :=
  Ret [StartTag Tag.p []; Data html; EndTag Tag.p].

Definition sample_results : list result :=
  match process_all sample_fetch sample_tokenizer sample_urls 3 5 with
  | Ret rs => rs
  | Raise _ => []
  end.

(** * Properties *)

(** ** Strings and stacks *)

Lemma str_eqb_eq : forall a b, str_eqb a b = true <-> a = b.
Proof.
  induction a as [|x a IH]; destruct b as [|y b]; simpl; split; intro H;
    try reflexivity; try discriminate.
  - apply andb_true_iff in H. destruct H as [H1 H2].
    apply N.eqb_eq in H1. apply IH in H2. congruence.
  - injection H as -> ->. rewrite N.eqb_refl. simpl. now apply IH.
Qed.

Lemma str_eqb_refl : forall a, str_eqb a a = true.
Proof. intro a. now apply str_eqb_eq. Qed.

Lemma str_eqb_neq : forall a b, str_eqb a b = false <-> a <> b.
Proof.
  intros a b. split.
  - intros H E. apply str_eqb_eq in E. congruence.
  - intro H. destruct (str_eqb a b) eqn:E; [|reflexivity].
    apply str_eqb_eq in E. contradiction.
Qed.

Lemma str_in_In : forall x l, str_in x l = true <-> In x l.
Proof.
  intros x l. unfold str_in. rewrite existsb_exists. split.
  - intros [y [Hy E]]. apply str_eqb_eq in E. now subst.
  - intro H. exists x. split; [assumption | apply str_eqb_refl].
Qed.

Lemma occ_app : forall t s1 s2, occ t (s1 ++ s2) = occ t s1 + occ t s2.
Proof.
  intros. unfold occ. now rewrite filter_app, length_app.
Qed.

Lemma occ_single : forall t t',
  occ t [t'] = if str_eqb t t' then 1 else 0.
Proof. intros. unfold occ. simpl. now destruct (str_eqb t t'). Qed.

Lemma occ_push_same : forall t s, occ t (push t s) = S (occ t s).
Proof.
  intros. unfold push. rewrite occ_app, occ_single, str_eqb_refl. lia.
Qed.

Lemma occ_push_le : forall t t' s, occ t s <= occ t (push t' s).
Proof. intros. unfold push. rewrite occ_app. lia. Qed.

Lemma top_is_split : forall s t,
  top_is s t = true -> s = removelast s ++ [t].
Proof.
  intros s t H. destruct s as [|x s]; [discriminate|].
  unfold top_is in H. apply str_eqb_eq in H.
  subst t. apply app_removelast_last. discriminate.
Qed.

Lemma occ_pop_le : forall t s, occ t s <= S (occ t (removelast s)).
Proof.
  intros t s. destruct s as [|x s]; [simpl; lia|].
  assert (E : x :: s = removelast (x :: s) ++ [last (x :: s) []])
    by (apply app_removelast_last; discriminate).
  rewrite E at 1. rewrite occ_app, occ_single.
  destruct (str_eqb t (last (x :: s) [])); lia.
Qed.

Lemma occ_pop_other : forall t t' s,
  top_is s t' = true -> t' <> t -> occ t (removelast s) = occ t s.
Proof.
  intros t t' s H Hne. rewrite (top_is_split _ _ H) at 2.
  rewrite occ_app, occ_single.
  replace (str_eqb t t') with false; [lia|].
  symmetry. apply str_eqb_neq. congruence.
Qed.

Lemma occ_nonempty : forall t s, 1 <= occ t s -> nonempty s = true.
Proof. intros t [|x s] H; [unfold occ in H; simpl in H; lia | reflexivity]. Qed.

Lemma top_is_push : forall s t, top_is (push t s) t = true.
Proof.
  intros s t. unfold top_is, push. destruct (s ++ [t]) eqn:E.
  - now destruct s.
  - rewrite <- E. rewrite last_last. apply str_eqb_refl.
Qed.

Lemma removelast_push : forall s t, removelast (push t s) = s.
Proof. intros. unfold push. apply removelast_last. Qed.

Ltac fields :=
  unfold set_in_title, set_in_p, set_in_content, set_content_div_depth,
    set_skip_stack, set_exclude_stack, set_title_parts, set_paras in *;
  simpl in *.

Ltac split_ifs :=
  repeat match goal with
         | |- context [if ?b then _ else _] => destruct b
         | |- context [match strip ?d with [] => _ | _ :: _ => _ end] =>
             destruct (strip d)
         end;
  fields; try reflexivity.

Lemma run_app : forall p e1 e2, run p (e1 ++ e2) = run (run p e1) e2.
Proof. intros. unfold run. apply fold_left_app. Qed.

Lemma run_cons : forall p e evs, run p (e :: evs) = run (handle p e) evs.
Proof. reflexivity. Qed.

(** ** The skip region *)

Lemma start_skip : forall p t a,
  is_skip_tag t = true ->
  handle_starttag p t a = set_skip_stack (push t (skip_stack p)) p.
Proof. intros p t a H. unfold handle_starttag. now rewrite H. Qed.

Lemma start_other_skip_stack : forall p t a,
  is_skip_tag t = false ->
  skip_stack (handle_starttag p t a) = skip_stack p.
Proof.
  intros p t a H. unfold handle_starttag. rewrite H. split_ifs.
Qed.

Lemma end_other_skip_stack : forall p t,
  is_skip_tag t = false ->
  skip_stack (handle_endtag p t) = skip_stack p.
Proof.
  intros p t H. unfold handle_endtag. rewrite H. split_ifs.
Qed.

Lemma data_skip_stack : forall p data,
  skip_stack (handle_data p data) = skip_stack p.
Proof. intros. unfold handle_data. split_ifs. Qed.

Lemma data_exclude_stack : forall p data,
  exclude_stack (handle_data p data) = exclude_stack p.
Proof. intros. unfold handle_data. split_ifs. Qed.

Lemma skip_depth_step : forall t e p d d',
  depth_step t d e = Some d' ->
  is_skip_tag t = true ->
  S d <= occ t (skip_stack p) ->
  S d' <= occ t (skip_stack (handle p e)).
Proof.
  intros t e p d d' Hstep Ht Hocc. destruct e as [t' a|t'|data]; simpl in *.
  - injection Hstep as <-. destruct (str_eqb t' t) eqn:E.
    + apply str_eqb_eq in E. subst t'. rewrite start_skip by assumption.
      fields. rewrite occ_push_same. lia.
    + destruct (is_skip_tag t') eqn:Hs.
      * rewrite start_skip by assumption. fields.
        pose proof (occ_push_le t t' (skip_stack p)). lia.
      * now rewrite start_other_skip_stack.
  - destruct (str_eqb t' t) eqn:E.
    + apply str_eqb_eq in E. subst t'. destruct d as [|d0]; [discriminate|].
      injection Hstep as <-. unfold handle_endtag. rewrite Ht.
      destruct (top_is (skip_stack p) t); fields; [|lia].
      pose proof (occ_pop_le t (skip_stack p)). lia.
    + injection Hstep as <-. apply str_eqb_neq in E.
      destruct (is_skip_tag t') eqn:Hs.
      * unfold handle_endtag. rewrite Hs.
        destruct (top_is (skip_stack p) t') eqn:Htop; fields; [|assumption].
        now rewrite (occ_pop_other _ Htop E).
      * now rewrite end_other_skip_stack.
  - injection Hstep as <-. now rewrite data_skip_stack.
Qed.

Lemma skip_stays_inside : forall t evs p d,
  is_skip_tag t = true ->
  stays_inside t d evs = true ->
  S d <= occ t (skip_stack p) ->
  nonempty (skip_stack (run p evs)) = true.
Proof.
  intros t evs. induction evs as [|e evs IH]; intros p d Ht Hin Hocc.
  - simpl. apply occ_nonempty with t. lia.
  - simpl in Hin. destruct (depth_step t d e) as [d'|] eqn:Hstep;
      [|discriminate].
    rewrite run_cons. apply IH with d'; try assumption.
    eapply skip_depth_step; eassumption.
Qed.

Lemma data_in_skip : forall p data,
  nonempty (skip_stack p) = true -> handle_data p data = p.
Proof. intros p data H. unfold handle_data. now rewrite H. Qed.

Lemma data_in_exclude : forall p data,
  nonempty (exclude_stack p) = true -> handle_data p data = p.
Proof.
  intros p data H. unfold handle_data. rewrite H.
  now rewrite orb_true_r.
Qed.

Lemma skip_block_neutral : forall t a ds p,
  is_skip_tag t = true ->
  run p (StartTag t a :: List.map Data ds ++ [EndTag t]) = p.
Proof.
  intros t a ds p Ht. rewrite run_cons. cbn [handle].
  rewrite start_skip by assumption. rewrite run_app.
  assert (Hds : forall q, nonempty (skip_stack q) = true ->
                          run q (List.map Data ds) = q).
  { induction ds as [|d ds IH]; intros q Hq; [reflexivity|].
    cbn [List.map]. rewrite run_cons. cbn [handle].
    rewrite data_in_skip by assumption. now apply IH. }
  rewrite Hds.
  - unfold run. simpl. unfold handle_endtag. rewrite Ht. fields.
    rewrite top_is_push, removelast_push. now destruct p.
  - fields. unfold push. now destruct (skip_stack p).
Qed.

(** C8: text inside a [script] or [style] element is never collected, and
    the element does not touch the other trackers.  For a skip tag [t]:
    a text event that arrives while an element [t] is open leaves the
    parser exactly as if the text were absent, wherever the element sits;
    the start and end tag of [t] leave the exclude stack, the content flag
    and the content depth unchanged; and a whole block (start tag, its
    text, end tag) leaves the parser unchanged. *)
Theorem script_style_text_discarded : forall t a,
  is_skip_tag t = true ->
  (forall pre mid data post,
     stays_inside t 0 mid = true ->
     feed (pre ++ StartTag t a :: mid ++ Data data :: post)
     = feed (pre ++ StartTag t a :: mid ++ post))
  /\ (forall p,
        exclude_stack (handle_starttag p t a) = exclude_stack p
        /\ in_content (handle_starttag p t a) = in_content p
        /\ content_div_depth (handle_starttag p t a) = content_div_depth p
        /\ exclude_stack (handle_endtag p t) = exclude_stack p
        /\ in_content (handle_endtag p t) = in_content p
        /\ content_div_depth (handle_endtag p t) = content_div_depth p)
  /\ (forall pre ds post,
        feed (pre ++ StartTag t a :: List.map Data ds ++ EndTag t :: post)
        = feed (pre ++ post)).
Proof.
  intros t a Ht. repeat split.
  - intros pre mid data post Hin. unfold feed.
    rewrite !run_app, !run_cons, !run_app, run_cons. cbn [handle].
    rewrite data_in_skip; [reflexivity|].
    apply skip_stays_inside with t 0; try assumption.
    rewrite start_skip by assumption. fields. rewrite occ_push_same. lia.
  - now rewrite start_skip.
  - now rewrite start_skip.
  - now rewrite start_skip.
  - unfold handle_endtag. rewrite Ht. split_ifs.
  - unfold handle_endtag. rewrite Ht. split_ifs.
  - unfold handle_endtag. rewrite Ht. split_ifs.
  - intros pre ds post. unfold feed. rewrite !run_app.
    change (StartTag t a :: List.map Data ds ++ EndTag t :: post)
      with ((StartTag t a :: List.map Data ds) ++ EndTag t :: post).
    replace ((StartTag t a :: List.map Data ds) ++ EndTag t :: post)
      with ((StartTag t a :: List.map Data ds ++ [EndTag t]) ++ post)
      by (simpl; now rewrite <- app_assoc).
    rewrite run_app. now rewrite skip_block_neutral.
Qed.

Lemma script_style_text_discarded_witness :
  is_skip_tag Tag.script = true
  /\ feed (page_script_in_content
           ++ StartTag Tag.script [] :: [] ++ Data (lit "var x;")
              :: [EndTag Tag.script; EndTag Tag.p; EndTag Tag.div])
     = feed (page_script_in_content
             ++ StartTag Tag.script [] :: []
                ++ [EndTag Tag.script; EndTag Tag.p; EndTag Tag.div]).
Proof.
  split; [reflexivity|].
  apply (proj1 (@script_style_text_discarded Tag.script [] eq_refl)).
  reflexivity.
Defined.

(** ** The exclude region *)

Lemma container_not_skip : forall t,
  is_container_tag t = true -> is_skip_tag t = false.
Proof.
  intros t H. apply str_in_In in H. simpl in H.
  destruct H as [<-|[<-|[<-|[<-|[]]]]]; reflexivity.
Qed.

Lemma start_container : forall p t a,
  is_container_tag t = true ->
  handle_starttag p t a = set_exclude_stack (push t (exclude_stack p)) p.
Proof.
  intros p t a H. unfold handle_starttag.
  rewrite (container_not_skip _ H).
  unfold is_excluded, exclude_arm_of. unfold is_container_tag in H.
  now rewrite H.
Qed.

Lemma start_exclude_stack : forall p t a,
  exclude_stack (handle_starttag p t a) = exclude_stack p
  \/ exclude_stack (handle_starttag p t a) = push t (exclude_stack p).
Proof.
  intros p t a. unfold handle_starttag.
  destruct (is_skip_tag t); [left; reflexivity|].
  destruct (is_excluded t a); [right; reflexivity|].
  left. split_ifs.
Qed.

Lemma end_exclude_stack : forall p t,
  exclude_stack (handle_endtag p t) = exclude_stack p
  \/ (top_is (exclude_stack p) t = true
      /\ exclude_stack (handle_endtag p t) = removelast (exclude_stack p)).
Proof.
  intros p t. unfold handle_endtag.
  destruct (is_skip_tag t); [left; split_ifs|].
  destruct (top_is (exclude_stack p) t) eqn:Htop.
  - right. split; [reflexivity|]. split_ifs.
  - left. split_ifs.
Qed.

Lemma exclude_depth_step : forall t e p d d',
  depth_step t d e = Some d' ->
  is_container_tag t = true ->
  S d <= occ t (exclude_stack p) ->
  S d' <= occ t (exclude_stack (handle p e)).
Proof.
  intros t e p d d' Hstep Ht Hocc. destruct e as [t' a|t'|data]; simpl in *.
  - injection Hstep as <-. destruct (str_eqb t' t) eqn:E.
    + apply str_eqb_eq in E. subst t'. rewrite start_container by assumption.
      fields. rewrite occ_push_same. lia.
    + destruct (start_exclude_stack p t' a) as [-> | ->]; [assumption|].
      pose proof (occ_push_le t t' (exclude_stack p)). lia.
  - destruct (end_exclude_stack p t') as [-> | [Htop ->]].
    + destruct (str_eqb t' t); [destruct d; [discriminate|]|];
        injection Hstep as <-; lia.
    + destruct (str_eqb t' t) eqn:E.
      * destruct d as [|d0]; [discriminate|]. injection Hstep as <-.
        pose proof (occ_pop_le t (exclude_stack p)). lia.
      * injection Hstep as <-. apply str_eqb_neq in E.
        now rewrite (occ_pop_other _ Htop E).
  - injection Hstep as <-. now rewrite data_exclude_stack.
Qed.

Lemma exclude_stays_inside : forall t evs p d,
  is_container_tag t = true ->
  stays_inside t d evs = true ->
  S d <= occ t (exclude_stack p) ->
  nonempty (exclude_stack (run p evs)) = true.
Proof.
  intros t evs. induction evs as [|e evs IH]; intros p d Ht Hin Hocc.
  - simpl. apply occ_nonempty with t. lia.
  - simpl in Hin. destruct (depth_step t d e) as [d'|] eqn:Hstep;
      [|discriminate].
    rewrite run_cons. apply IH with d'; try assumption.
    eapply exclude_depth_step; eassumption.
Qed.

Lemma container_text_dropped : forall t a pre mid data post,
  is_container_tag t = true ->
  stays_inside t 0 mid = true ->
  feed (pre ++ StartTag t a :: mid ++ Data data :: post)
  = feed (pre ++ StartTag t a :: mid ++ post).
Proof.
  intros t a pre mid data post Ht Hin. unfold feed.
  rewrite !run_app, !run_cons, !run_app, run_cons. cbn [handle].
  rewrite data_in_exclude; [reflexivity|].
  apply exclude_stays_inside with t 0; try assumption.
  rewrite start_container by assumption. fields.
  rewrite occ_push_same. lia.
Qed.

(** C10: every [table] start tag, whatever its attributes, pushes the tag
    on the exclude stack and changes nothing else; text arriving while
    that table is open (inner tables may open and close) leaves the parser
    as if the text were absent; and no tag reaches the class-conditional
    [table] arm of the exclusion chain. *)
Theorem table_always_excluded :
  (forall p a,
     handle_starttag p Tag.table a
     = set_exclude_stack (push Tag.table (exclude_stack p)) p)
  /\ (forall a pre mid data post,
        stays_inside Tag.table 0 mid = true ->
        feed (pre ++ StartTag Tag.table a :: mid ++ Data data :: post)
        = feed (pre ++ StartTag Tag.table a :: mid ++ post))
  /\ (forall tag, exclude_arm_of tag <> ArmTableClass).
Proof.
  split; [|split].
  - intros p a. now apply start_container.
  - intros. now apply container_text_dropped.
  - intros tag. unfold exclude_arm_of.
    destruct (str_in tag [Tag.nav; Tag.footer; Tag.aside; Tag.table]) eqn:E1;
      [discriminate|].
    destruct (str_eqb tag Tag.div); [discriminate|].
    destruct (str_in tag [Tag.ol; Tag.ul]); [discriminate|].
    destruct (str_eqb tag Tag.table) eqn:E2.
    + apply str_eqb_eq in E2. subst tag. discriminate E1.
    + destruct (str_eqb tag Tag.sup); discriminate.
Qed.

Lemma table_always_excluded_witness :
  stays_inside Tag.table 0 table_inner_events = true
  /\ feed ([] ++ StartTag Tag.table [(Attr.class, Some (lit "wikitable"))]
              :: table_inner_events ++ Data (lit "cell") :: [EndTag Tag.p])
     = feed ([] ++ StartTag Tag.table [(Attr.class, Some (lit "wikitable"))]
                :: table_inner_events ++ [EndTag Tag.p]).
Proof.
  split; [reflexivity|].
  apply (proj1 (proj2 table_always_excluded)). reflexivity.
Defined.

(** ** The content region *)

Ltac bool_facts :=
  repeat match goal with
         | H : (_ <? _)%Z = true |- _ => apply Z.ltb_lt in H
         | H : (_ <? _)%Z = false |- _ => apply Z.ltb_ge in H
         | H : (_ =? _)%Z = true |- _ => apply Z.eqb_eq in H
         | H : (_ =? _)%Z = false |- _ => apply Z.eqb_neq in H
         end.

Ltac depth_case :=
  match goal with
  | Hiff : true = true <-> _ |- _ =>
      pose proof (proj1 Hiff eq_refl); clear Hiff
  | Hiff : false = true <-> ?P |- _ =>
      assert (~ P) by (let HP := fresh in
                       intro HP; apply Hiff in HP; discriminate HP);
      clear Hiff
  end;
  split; [lia|]; split; intro; try reflexivity; try discriminate; try lia.

Lemma depth_consistent_handle : forall p e,
  depth_consistent p -> depth_consistent (handle p e).
Proof.
  intros p e [Hnn Hiff]. unfold depth_consistent.
  destruct e as [t a|t|data]; cbn [handle].
  - unfold handle_starttag.
    destruct (in_content p) eqn:Hc;
      repeat match goal with
             | |- context [if ?b then _ else _] => destruct b eqn:?
             end; fields; rewrite ?Hc; bool_facts; depth_case.
  - unfold handle_endtag.
    destruct (in_content p) eqn:Hc;
      repeat match goal with
             | |- context [if ?b then _ else _] => destruct b eqn:?
             end; fields; rewrite ?Hc in *; bool_facts;
      try discriminate; depth_case.
  - unfold handle_data. split_ifs; tauto.
Qed.

Lemma depth_consistent_feed : forall evs, depth_consistent (feed evs).
Proof.
  intro evs. unfold feed.
  assert (H : depth_consistent new_parser).
  { split; simpl; [lia|]. split; [discriminate | lia]. }
  revert H. generalize new_parser.
  induction evs as [|e evs IH]; intros p Hp; [exact Hp|].
  rewrite run_cons. apply IH. now apply depth_consistent_handle.
Qed.

Lemma in_scope_always : forall evs, in_scope (feed evs) = true.
Proof.
  intro evs. destruct (depth_consistent_feed evs) as [Hnn Hiff].
  unfold in_scope. destruct (in_content (feed evs)) eqn:Hc; [reflexivity|].
  simpl. apply Z.eqb_eq.
  destruct (Z.eq_dec (content_div_depth (feed evs)) 0) as [E|E];
    [exact E|].
  assert (Hp : (0 < content_div_depth (feed evs))%Z) by lia.
  apply Hiff in Hp. discriminate.
Qed.

(** C2: the guard [in_content or content_div_depth == 0] holds after
    every event stream, so it filters nothing: on a page that has a content
    container, the paragraph that follows the container is collected
    together with the one inside it. *)
Theorem paragraph_after_container_collected :
  (forall evs, in_scope (feed evs) = true)
  /\ get_text (feed page_after_container) = lit "in after".
Proof. split; [apply in_scope_always | vm_compute; reflexivity]. Qed.

(** C3: inside an excluded [div], the end tag of a nested plain [div]
    empties the exclude stack, and the paragraph that follows, still inside
    the excluded [div], is collected. *)
Theorem navbox_text_after_inner_div_collected :
  exclude_stack
    (run new_parser (firstn 4 page_navbox_inner_div)) = []
  /\ get_text (feed page_navbox_inner_div) = lit "leak".
Proof. split; vm_compute; reflexivity. Qed.

(** ** Sorting *)

Section SortFacts.
Variable A : Type.
Variable precedes : A -> A -> bool.
Variable R : A -> A -> Prop.
Hypothesis R_trans : forall x y z, R x y -> R y z -> R x z.
Hypothesis precedes_R : forall x y, precedes x y = true -> R x y.
Hypothesis not_precedes_R : forall x y, precedes y x = false -> R x y.

Lemma insert_by_perm : forall x l,
  Permutation (insert_by precedes x l) (x :: l).
Proof.
  intros x l. induction l as [|y l IH]; simpl; [reflexivity|].
  destruct (precedes y x); [|reflexivity].
  rewrite IH. apply perm_swap.
Qed.

Lemma sort_by_perm : forall l, Permutation (sort_by precedes l) l.
Proof.
  induction l as [|x l IH]; simpl; [reflexivity|].
  rewrite insert_by_perm. now constructor.
Qed.

Lemma insert_by_sorted : forall x l,
  StronglySorted R l -> StronglySorted R (insert_by precedes x l).
Proof.
  intros x l. induction l as [|y l IH]; intro Hs; simpl.
  - constructor; constructor.
  - inversion Hs as [|? ? Hs' Hall]; subst.
    destruct (precedes y x) eqn:E.
    + constructor; [now apply IH|].
      apply Permutation_Forall with (x :: l).
      * symmetry. apply insert_by_perm.
      * constructor; [now apply precedes_R | assumption].
    + constructor; [assumption|].
      assert (Hxy : R x y) by now apply not_precedes_R.
      constructor; [assumption|].
      eapply Forall_impl; [|exact Hall].
      intros z Hz. now apply R_trans with y.
Qed.

Lemma sort_by_sorted : forall l, StronglySorted R (sort_by precedes l).
Proof.
  induction l as [|x l IH]; simpl; [constructor|].
  now apply insert_by_sorted.
Qed.
End SortFacts.

Lemma incl_firstn : forall (A : Type) n (l : list A), incl (firstn n l) l.
Proof.
  intros A n l x Hx. rewrite <- (firstn_skipn n l).
  apply in_or_app. now left.
Qed.


Lemma NoDup_firstn : forall (A : Type) n (l : list A),
  NoDup l -> NoDup (firstn n l).
Proof.
  intros A n. induction n as [|n IH]; intros l Hn; [constructor|].
  destruct l as [|x l]; [constructor|].
  inversion Hn as [|? ? Hx Hl]; subst. simpl. constructor.
  - intro H. apply Hx. now apply incl_firstn in H.
  - now apply IH.
Qed.

Lemma slice_to_firstn : forall (A : Type) n (l : list A),
  exists m, slice_to n l = firstn m l.
Proof.
  intros A n l. unfold slice_to. destruct (0 <=? n)%Z; eauto.
Qed.

(** Stability: elements that share a key keep their input order. *)
Lemma sorted_desc_by_stable : forall (A : Type) (key : A -> Z) v l,
  List.filter (fun x => (key x =? v)%Z) (sorted_desc_by key l)
  = List.filter (fun x => (key x =? v)%Z) l.
Proof.
  intros A key v l. unfold sorted_desc_by.
  assert (Hins : forall x s,
            List.filter (fun x => (key x =? v)%Z)
              (insert_by (fun y x0 => (key x0 <? key y)%Z) x s)
            = List.filter (fun x => (key x =? v)%Z) (x :: s)).
  { intros x s. induction s as [|y s IHs]; [reflexivity|].
    cbn [insert_by]. destruct (key x <? key y)%Z eqn:E; [|reflexivity].
    apply Z.ltb_lt in E. cbn [List.filter]. rewrite IHs. cbn [List.filter].
    destruct (key y =? v)%Z eqn:Ey; destruct (key x =? v)%Z eqn:Ex;
      try reflexivity.
    apply Z.eqb_eq in Ey, Ex. lia. }
  induction l as [|x l IH]; [reflexivity|].
  cbn [sort_by]. rewrite Hins. cbn [List.filter]. now rewrite IH.
Qed.

Lemma sorted_desc_by_perm : forall (A : Type) (key : A -> Z) l,
  Permutation (sorted_desc_by key l) l.
Proof. intros. apply sort_by_perm. Qed.

Lemma sorted_desc_by_sorted : forall (A : Type) (key : A -> Z) l,
  StronglySorted (fun x y => (key x >= key y)%Z) (sorted_desc_by key l).
Proof.
  intros A key l. unfold sorted_desc_by. apply sort_by_sorted.
  - intros x y z. lia.
  - intros x y H. apply Z.ltb_lt in H. lia.
  - intros x y H. apply Z.ltb_ge in H. lia.
Qed.

Lemma sorted_nat_perm : forall l, Permutation (sorted_nat l) l.
Proof. intros. apply sort_by_perm. Qed.

Lemma sorted_nat_strict : forall l,
  NoDup l -> StronglySorted lt (sorted_nat l).
Proof.
  intros l Hn.
  assert (Hle : StronglySorted le (sorted_nat l)).
  { unfold sorted_nat. apply sort_by_sorted.
    - intros x y z. lia.
    - intros x y H. apply Nat.ltb_lt in H. lia.
    - intros x y H. apply Nat.ltb_ge in H. lia. }
  assert (Hnd : NoDup (sorted_nat l)).
  { eapply Permutation_NoDup; [|exact Hn]. symmetry. apply sorted_nat_perm. }
  induction Hle as [|x s Hs IH Hall]; [constructor|].
  inversion Hnd as [|? ? Hx Hs']; subst. constructor; [now apply IH|].
  apply Forall_forall. intros y Hy.
  rewrite Forall_forall in Hall. specialize (Hall y Hy).
  assert (x <> y) by (intros ->; contradiction). lia.
Qed.

(** The indices chosen by [summarize] are distinct positions of the
    sentence list, in ascending order. *)
Lemma top_indices_ascending : forall scores n,
  StronglySorted lt (top_indices scores n)
  /\ Forall (fun i => i < List.length scores) (top_indices scores n).
Proof.
  intros scores n. unfold top_indices.
  set (ranked := sorted_desc_by _ _).
  destruct (slice_to_firstn n ranked) as [m ->].
  assert (Hperm : Permutation ranked (seq 0 (List.length scores)))
    by apply sorted_desc_by_perm.
  split.
  - apply sorted_nat_strict. apply NoDup_firstn.
    eapply Permutation_NoDup; [symmetry; exact Hperm | apply seq_NoDup].
  - apply Forall_forall. intros i Hi.
    apply (Permutation_in _ (sorted_nat_perm _)) in Hi.
    apply incl_firstn in Hi.
    apply (Permutation_in _ Hperm) in Hi.
    apply in_seq in Hi. lia.
Qed.

(** ** The summary *)

Lemma clip_over : forall budget s,
  (0 < budget)%Z -> (budget < len s)%Z ->
  clip budget s = firstn (Z.to_nat (budget - 1)) s ++ [ELLIPSIS].
Proof.
  intros budget s Hpos Hlt. unfold clip, slice_to.
  replace (len s <=? budget)%Z with false by (symmetry; apply Z.leb_gt; lia).
  replace (0 <=? budget - 1)%Z with true by (symmetry; apply Z.leb_le; lia).
  reflexivity.
Qed.

Lemma clip_within : forall budget s,
  (len s <= budget)%Z -> clip budget s = s.
Proof.
  intros budget s H. unfold clip.
  now replace (len s <=? budget)%Z with true by (symmetry; apply Z.leb_le; lia).
Qed.

(** C5: when the text has at most [max_sentences] sentences, the summary
    is all of them joined by single spaces: as it is when the budget is
    disabled or the joined string fits the budget, and otherwise its first
    [budget - 1] characters followed by an ellipsis. *)
Theorem summarize_short_text : forall budget text max_sentences,
  (len (split_sentences text) <= max_sentences)%Z ->
  ((budget <= 0)%Z ->
     summarize_with budget text max_sentences
     = join [SP] (split_sentences text))
  /\ ((0 < budget)%Z ->
      (len (join [SP] (split_sentences text)) <= budget)%Z ->
      summarize_with budget text max_sentences
      = join [SP] (split_sentences text))
  /\ ((0 < budget)%Z ->
      (budget < len (join [SP] (split_sentences text)))%Z ->
      summarize_with budget text max_sentences
      = firstn (Z.to_nat (budget - 1)) (join [SP] (split_sentences text))
        ++ [ELLIPSIS]
      /\ len (summarize_with budget text max_sentences) = budget)
  /\ summarize text max_sentences
     = if (len (join [SP] (split_sentences text)) <=? MAX_SENT_CHARS)%Z
       then join [SP] (split_sentences text)
       else firstn 299 (join [SP] (split_sentences text)) ++ [ELLIPSIS].
Proof.
  intros budget text n Hle.
  assert (Hbody : forall b,
            summarize_with b text n
            = if (b <=? 0)%Z then join [SP] (split_sentences text)
              else clip b (join [SP] (split_sentences text))).
  { intro b. unfold summarize_with.
    destruct (split_sentences text) as [|s0 sents] eqn:E.
    - simpl join. destruct (b <=? 0)%Z eqn:Eb; [reflexivity|].
      apply Z.leb_gt in Eb.
      rewrite clip_within; [reflexivity | unfold len; simpl; lia].
    - replace (len (s0 :: sents) <=? n)%Z with true
        by (symmetry; apply Z.leb_le; exact Hle).
      reflexivity. }
  split; [|split; [|split]].
  - intro Hb. rewrite Hbody.
    now replace (budget <=? 0)%Z with true by (symmetry; apply Z.leb_le; lia).
  - intros Hb Hfit. rewrite Hbody.
    replace (budget <=? 0)%Z with false by (symmetry; apply Z.leb_gt; lia).
    now apply clip_within.
  - intros Hb Hover. rewrite Hbody.
    replace (budget <=? 0)%Z with false by (symmetry; apply Z.leb_gt; lia).
    rewrite clip_over by assumption. split; [reflexivity|].
    unfold len in *. rewrite length_app, length_firstn. simpl. lia.
  - unfold summarize. rewrite Hbody. unfold MAX_SENT_CHARS. simpl (300 <=? 0)%Z.
    cbv iota. unfold clip.
    destruct (len (join [SP] (split_sentences text)) <=? 300)%Z;
      reflexivity.
Qed.

Lemma summarize_short_text_witness :
  (len (split_sentences two_sentences) <= 3)%Z
  /\ summarize_with 10 two_sentences 3
     = firstn 9 (join [SP] (split_sentences two_sentences)) ++ [ELLIPSIS]
  /\ summarize_with 0 two_sentences 3 = two_sentences.
Proof.
  assert (H : (len (split_sentences two_sentences) <= 3)%Z)
    by (vm_compute; discriminate).
  split; [exact H|]. split.
  - apply (proj2 (proj2 (@summarize_short_text 10 two_sentences 3 H)));
      [reflexivity | vm_compute; reflexivity].
  - rewrite (proj1 (@summarize_short_text 0 two_sentences 3 H));
      [vm_compute; reflexivity | discriminate].
Defined.

(** C6: when the text has more than [max_sentences] sentences, the
    summary is made of the sentences at the selected positions, each
    clipped to the budget, and the selected positions are distinct
    positions of the sentence list in strictly ascending order: the
    sentences keep the order they have in the text. *)
Theorem summary_keeps_document_order : forall budget text max_sentences,
  (max_sentences < len (split_sentences text))%Z ->
  StronglySorted lt
    (top_indices
       (List.map (sentence_score (Counter (content_tokens text)))
          (split_sentences text)) max_sentences)
  /\ Forall (fun i => i < List.length (split_sentences text))
       (top_indices
          (List.map (sentence_score (Counter (content_tokens text)))
             (split_sentences text)) max_sentences)
  /\ summarize_with budget text max_sentences
     = join [SP]
         (List.map
            (fun i =>
               if (0 <? budget)%Z
               then clip budget (nth i (split_sentences text) [])
               else nth i (split_sentences text) [])
            (top_indices
               (List.map (sentence_score (Counter (content_tokens text)))
                  (split_sentences text)) max_sentences)).
Proof.
  intros budget text n Hlt.
  destruct (top_indices_ascending
              (List.map (sentence_score (Counter (content_tokens text)))
                 (split_sentences text)) n) as [Hsorted Hbound].
  rewrite length_map in Hbound.
  split; [exact Hsorted|]. split; [exact Hbound|].
  unfold summarize_with.
  destruct (split_sentences text) as [|s0 sents] eqn:E.
  - vm_compute in Hlt.
    assert (Hnil : top_indices [] n = []).
    { unfold top_indices. simpl. unfold slice_to.
      destruct (0 <=? n)%Z; simpl; now rewrite ?firstn_nil. }
    simpl List.map at 2. now rewrite Hnil.
  - replace (len (s0 :: sents) <=? n)%Z with false
      by (symmetry; apply Z.leb_gt; exact Hlt).
    destruct (0 <? budget)%Z; [|reflexivity].
    now rewrite map_map.
Qed.

Lemma summary_keeps_document_order_witness :
  (2 < len (split_sentences cats_body))%Z
  /\ StronglySorted lt
       (top_indices
          (List.map (sentence_score (Counter (content_tokens cats_body)))
             (split_sentences cats_body)) 2).
Proof.
  assert (H : (2 < len (split_sentences cats_body))%Z)
    by (vm_compute; reflexivity).
  split; [exact H|].
  exact (proj1 (@summary_keeps_document_order 300 cats_body 2 H)).
Defined.

(** ** Counters and keywords *)

Lemma counter_incr_keys : forall w c,
  (In w (keys c) /\ keys (counter_incr w c) = keys c)
  \/ (~ In w (keys c) /\ keys (counter_incr w c) = keys c ++ [w]).
Proof.
  intros w c. induction c as [|[k n] c IH]; simpl.
  - right. split; [tauto | reflexivity].
  - destruct (str_eqb k w) eqn:E.
    + apply str_eqb_eq in E. left. simpl. split; [now left | reflexivity].
    + apply str_eqb_neq in E. simpl.
      destruct IH as [[Hin Hk] | [Hout Hk]]; rewrite Hk.
      * left. split; [now right | reflexivity].
      * right. split; [|reflexivity]. intros [H|H]; contradiction.
Qed.

Lemma Counter_keys_acc : forall ws acc,
  NoDup (keys acc) ->
  NoDup (keys (fold_left (fun c w => counter_incr w c) ws acc))
  /\ incl (keys (fold_left (fun c w => counter_incr w c) ws acc))
       (keys acc ++ ws).
Proof.
  induction ws as [|w ws IH]; intros acc Hnd; simpl.
  - split; [assumption|]. rewrite app_nil_r. apply incl_refl.
  - destruct (counter_incr_keys w acc) as [[Hin Hk] | [Hout Hk]].
    + destruct (IH (counter_incr w acc)) as [H1 H2];
        [now rewrite Hk|].
      split; [assumption|]. rewrite Hk in H2.
      intros x Hx. apply H2 in Hx. apply in_app_or in Hx.
      apply in_or_app. destruct Hx; [now left | right; now right].
    + destruct (IH (counter_incr w acc)) as [H1 H2].
      { rewrite Hk. apply NoDup_app; [assumption | repeat constructor; simpl; tauto |].
        intros x Hx [<-|[]]. contradiction. }
      split; [assumption|]. rewrite Hk in H2.
      intros x Hx. apply H2 in Hx. rewrite <- app_assoc in Hx.
      exact Hx.
Qed.

Lemma Counter_keys : forall ws,
  NoDup (keys (Counter ws)) /\ incl (keys (Counter ws)) ws.
Proof.
  intro ws. unfold Counter.
  destruct (@Counter_keys_acc ws []) as [H1 H2]; [constructor|].
  split; assumption.
Qed.

Lemma counter_get_In : forall c w n,
  NoDup (keys c) -> In (w, n) c -> counter_get c w = n.
Proof.
  induction c as [|[k m] c IH]; intros w n Hnd Hin; [contradiction|].
  simpl in *. inversion Hnd as [|? ? Hk Hc]; subst.
  destruct Hin as [E|Hin].
  - injection E as -> ->. now rewrite str_eqb_refl.
  - destruct (str_eqb k w) eqn:E.
    + apply str_eqb_eq in E. subst k. exfalso. apply Hk.
      unfold keys. change w with (fst (w, n)). now apply in_map.
    + now apply IH.
Qed.


(** ** Footnote spans *)

Lemma index_of_None : forall c t, index_of c t = None <-> ~ In c t.
Proof.
  intros c t. induction t as [|x t IH]; simpl; [tauto|].
  destruct (N.eqb x c) eqn:E.
  - apply N.eqb_eq in E. split; [discriminate | intro H; exfalso; auto].
  - apply N.eqb_neq in E. destruct (index_of c t).
    + split; [discriminate|]. intro H. exfalso. apply H. right.
      destruct IH as [_ IH]. destruct (in_dec N.eq_dec c t) as [Hin|Hout];
        [assumption|]. now specialize (IH Hout).
    + split; [|reflexivity]. intros _ [H|H]; [contradiction|].
      now apply IH.
Qed.

Lemma index_of_skip : forall c b rest,
  ~ In c b -> index_of c (b ++ c :: rest) = Some (List.length b).
Proof.
  intros c b rest. induction b as [|x b IH]; intro H; simpl.
  - now rewrite N.eqb_refl.
  - replace (N.eqb x c) with false
      by (symmetry; apply N.eqb_neq; intros ->; apply H; now left).
    rewrite IH; [reflexivity|]. intro Hin. apply H. now right.
Qed.

Lemma footnote_free_app : forall a t,
  footnote_free (a ++ t) = true -> footnote_free t = true.
Proof.
  induction a as [|x a IH]; intros t H; [exact H|].
  simpl app in H. cbn [footnote_free] in H.
  destruct (re_footnote (x :: a ++ t)); [discriminate|]. now apply IH.
Qed.

Lemma footnote_span_not_free : forall s,
  footnote_span s -> footnote_free s = false.
Proof.
  intros s (a & b & c & -> & Hb & Hin).
  destruct (footnote_free (a ++ LBRACKET :: b ++ RBRACKET :: c)) eqn:E;
    [|reflexivity].
  apply footnote_free_app in E. cbn [footnote_free] in E.
  unfold re_footnote in E. simpl (N.eqb LBRACKET LBRACKET) in E. cbv iota in E.
  rewrite index_of_skip in E by assumption.
  destruct b; [contradiction | discriminate].
Qed.

Lemma re_sub_aux_chars : forall m repl t k x,
  In x (re_sub_aux m repl k t) -> In x t \/ In x repl.
Proof.
  intros m repl t. induction t as [|c t IH]; intros k x H; simpl in H;
    [contradiction|].
  destruct k as [|k].
  - destruct (m (c :: t)) as [[|j]|].
    + destruct H as [<-|H]; [left; now left|].
      destruct (IH _ _ H); [left; now right | now right].
    + apply in_app_or in H. destruct H as [H|H]; [now right|].
      destruct (IH _ _ H); [left; now right | now right].
    + destruct H as [<-|H]; [left; now left|].
      destruct (IH _ _ H); [left; now right | now right].
  - destruct (IH _ _ H); [left; now right | now right].
Qed.

Lemma re_footnote_cases : forall t,
  (exists j, re_footnote t = Some (S j))
  \/ (re_footnote t = None
      /\ forall rest, t = LBRACKET :: rest ->
           ~ In RBRACKET rest \/ exists rest', rest = RBRACKET :: rest').
Proof.
  intro t. destruct t as [|c rest]; [right; split; [reflexivity|discriminate]|].
  unfold re_footnote. destruct (N.eqb c LBRACKET) eqn:E.
  - destruct (index_of RBRACKET rest) as [[|i]|] eqn:Ei.
    + right. split; [reflexivity|]. intros r Hr. injection Hr as _ <-.
      right. destruct rest as [|x rest]; [discriminate|].
      simpl in Ei. destruct (N.eqb x RBRACKET) eqn:Ex.
      * apply N.eqb_eq in Ex. subst x. now exists rest.
      * destruct (index_of RBRACKET rest); discriminate.
    + left. eauto.
    + right. split; [reflexivity|]. intros r Hr. injection Hr as _ <-.
      left. now apply index_of_None.
  - right. split; [reflexivity|]. intros r Hr. injection Hr as -> _.
    discriminate.
Qed.

Lemma re_footnote_open : forall rest,
  re_footnote (LBRACKET :: rest)
  = match index_of RBRACKET rest with
    | Some (S i) => Some (S (S (S i)))
    | _ => None
    end.
Proof. reflexivity. Qed.

Lemma re_footnote_other : forall c rest,
  N.eqb c LBRACKET = false -> re_footnote (c :: rest) = None.
Proof. intros c rest H. unfold re_footnote. now rewrite H. Qed.

(** After the substitution no match of the footnote pattern is left. *)
Lemma re_sub_footnote_free : forall t k,
  footnote_free (re_sub_aux re_footnote [SP] k t) = true.
Proof.
  induction t as [|c t IH]; intro k; [reflexivity|].
  cbn [re_sub_aux]. destruct k as [|k]; [|apply IH].
  destruct (re_footnote_cases (c :: t)) as [[j Hj] | [Hnone Hrest]].
  - rewrite Hj. simpl app. cbn [footnote_free]. simpl re_footnote. apply IH.
  - rewrite Hnone. cbn [footnote_free].
    destruct (N.eqb c LBRACKET) eqn:Ec.
    + apply N.eqb_eq in Ec. subst c. rewrite re_footnote_open.
      destruct (Hrest t eq_refl) as [Hout | [t' ->]].
      * assert (Hx : index_of RBRACKET (re_sub_aux re_footnote [SP] 0 t)
                     = None).
        { apply index_of_None. intro Hin.
          apply re_sub_aux_chars in Hin. destruct Hin as [Hin|[Hin|[]]];
            [contradiction | discriminate]. }
        rewrite Hx. apply IH.
      * specialize (IH 0). cbn [re_sub_aux] in *. simpl re_footnote in *.
        simpl index_of. exact IH.
    + rewrite re_footnote_other by assumption. apply IH.
Qed.

Lemma infix_trans : forall s t u, infix s t -> infix t u -> infix s u.
Proof.
  intros s t u (a & c & ->) (a' & c' & ->).
  exists (a' ++ a), (c ++ c'). now rewrite !app_assoc.
Qed.

Lemma footnote_span_infix : forall s t,
  infix s t -> footnote_span s -> footnote_span t.
Proof.
  intros s t (a & c & ->) (a' & b & c' & -> & Hb & Hin).
  exists (a ++ a'), b, (c' ++ c). split; [|split; assumption].
  rewrite <- !app_assoc. simpl. rewrite <- !app_assoc. reflexivity.
Qed.

Lemma lstrip_infix : forall t, infix (lstrip t) t.
Proof.
  induction t as [|c t IH]; simpl.
  - now exists [], [].
  - destruct (isspace c).
    + apply infix_trans with t; [assumption|]. now exists [c], [];
        rewrite app_nil_r.
    + exists [], []. now rewrite app_nil_r.
Qed.

Lemma rev_infix : forall s t, infix s t -> infix (rev s) (rev t).
Proof.
  intros s t (a & c & ->). exists (rev c), (rev a).
  now rewrite !rev_app_distr, app_assoc.
Qed.

Lemma strip_infix : forall t, infix (strip t) t.
Proof.
  intro t. unfold strip, rstrip.
  apply infix_trans with (lstrip t); [|apply lstrip_infix].
  rewrite <- (rev_involutive (lstrip t)) at 2.
  apply rev_infix. apply lstrip_infix.
Qed.

(** The pieces of [re.split] on a zero-width pattern concatenate to the
    text that was split. *)
Lemma re_split_aux_concat : forall t before_rev cur,
  List.concat (re_split_aux before_rev cur t) = rev cur ++ t.
Proof.
  induction t as [|c t IH]; intros before_rev cur; simpl.
  - now rewrite app_nil_r.
  - destruct (sentence_boundary before_rev (c :: t)); simpl; rewrite IH.
    + reflexivity.
    + simpl. now rewrite <- app_assoc.
Qed.

Lemma piece_infix : forall t p, In p (re_split_sentences t) -> infix p t.
Proof.
  intros t p H. unfold re_split_sentences in H.
  apply in_split in H. destruct H as (l1 & l2 & E).
  pose proof (re_split_aux_concat t [] []) as Hc. rewrite E in Hc.
  rewrite concat_app in Hc. simpl in Hc.
  exists (List.concat l1), (List.concat l2). now rewrite <- Hc.
Qed.

Lemma split_sentences_segmented : forall text,
  split_sentences text
  = List.map strip
      (List.filter (fun p => (2 <? len (strip p))%Z)
         (re_split_sentences (segmented_text text))).
Proof.
  intro text. unfold split_sentences, segmented_text.
  destruct (strip (re_sub re_spaces [SP] text)); reflexivity.
Qed.

Lemma segmented_text_clean : forall text,
  ~ footnote_span (segmented_text text).
Proof.
  intros text H. apply footnote_span_not_free in H.
  unfold segmented_text, re_sub in H.
  rewrite re_sub_footnote_free in H. discriminate.
Qed.

(** The part of [b] before its first closing bracket. *)
Lemma first_closing_bracket : forall b c,
  exists b1 rest,
    b ++ RBRACKET :: c = b1 ++ RBRACKET :: rest
    /\ ~ In RBRACKET b1
    /\ (forall x b', b = x :: b' -> x <> RBRACKET -> b1 <> []).
Proof.
  induction b as [|y b IH]; intro c.
  - exists [], c. split; [reflexivity|]. split; [tauto|]. discriminate.
  - destruct (N.eq_dec y RBRACKET) as [->|Hy].
    + exists [], (b ++ RBRACKET :: c). split; [reflexivity|].
      split; [tauto|]. intros x b' E Hx. injection E as <- _.
      contradiction.
    + destruct (IH c) as (b1 & rest & E & Hout & _).
      exists (y :: b1), rest. split; [simpl; now rewrite E|].
      split; [|discriminate].
      intros [H|H]; [congruence | contradiction].
Qed.

(** Where no footnote span is left, a closing bracket can follow an
    opening one only through an empty pair. *)
Lemma only_empty_pairs_left : forall s,
  ~ footnote_span s ->
  forall a b c,
    s = a ++ LBRACKET :: b ++ RBRACKET :: c ->
    b = [] \/ exists b', b = RBRACKET :: b'.
Proof.
  intros s Hs a b c E. destruct b as [|x b']; [now left|].
  destruct (N.eq_dec x RBRACKET) as [->|Hx]; [right; now exists b'|].
  exfalso. apply Hs.
  destruct (first_closing_bracket (x :: b') c)
    as (b1 & rest & E1 & Hout & Hne).
  exists a, b1, rest. split; [|split].
  - rewrite E. now rewrite E1.
  - now apply Hne with x b'.
  - exact Hout.
Qed.

(** C4: before it cuts the text into sentences, [split_sentences]
    rewrites it so that it holds no opening bracket followed by one or
    more characters other than a closing bracket and then a closing
    bracket (opening brackets may lie in between); the sentences are cut
    from that text, so no returned sentence contains such a span, and in a
    returned sentence a closing bracket can follow an opening bracket only
    where the opening bracket starts an empty pair. *)
Theorem split_sentences_no_footnote_span : forall text,
  ~ footnote_span (segmented_text text)
  /\ split_sentences text
     = List.map strip
         (List.filter (fun p => (2 <? len (strip p))%Z)
            (re_split_sentences (segmented_text text)))
  /\ (forall sent,
        In sent (split_sentences text) ->
        ~ footnote_span sent
        /\ (forall a b c,
              sent = a ++ LBRACKET :: b ++ RBRACKET :: c ->
              b = [] \/ exists b', b = RBRACKET :: b')).
Proof.
  intro text. split; [apply segmented_text_clean|].
  split; [apply split_sentences_segmented|].
  intros sent Hin.
  assert (Hclean : ~ footnote_span sent).
  { intro Hspan. rewrite split_sentences_segmented in Hin.
    apply in_map_iff in Hin. destruct Hin as (p & <- & Hp).
    apply filter_In in Hp. destruct Hp as [Hp _].
    apply piece_infix in Hp.
    apply (segmented_text_clean text).
    eapply footnote_span_infix; [|exact Hspan].
    eapply infix_trans; [apply strip_infix | exact Hp]. }
  split; [exact Hclean | now apply only_empty_pairs_left].
Qed.

Lemma split_sentences_no_footnote_span_witness :
  split_sentences footnoted_text
  = [lit "A note  goes c]."; lit "Next one!"]
  /\ ~ footnote_span (lit "A note  goes c].").
Proof.
  assert (E : split_sentences footnoted_text
              = [lit "A note  goes c]."; lit "Next one!"])
    by (vm_compute; reflexivity).
  split; [exact E|].
  apply (proj2 (proj2 (split_sentences_no_footnote_span footnoted_text))).
  rewrite E. now left.
Defined.

(** The claim as the specification words it, empty brackets included,
    fails: an empty pair of brackets is not matched by the pattern and
    stays in the sentence. *)
Lemma empty_brackets_survive :
  In (lit "Empty [] stays.") (split_sentences (lit "Empty [] stays."))
  /\ bracket_span (lit "Empty [] stays.").
Proof.
  split.
  - vm_compute. now left.
  - exists (lit "Empty "), [], (lit " stays."). reflexivity.
Qed.

(** ** The worked example *)

(** C1: for the three-sentence body of the example and two sentences
    asked for, the sentences score 4, 5 and 5, the second and the third are
    selected, and the summary is "Dogs are mammals too. Cats and dogs are
    pets.". *)
Theorem cats_example_summary :
  split_sentences cats_body
  = [ lit "Cats are mammals."; lit "Dogs are mammals too.";
      lit "Cats and dogs are pets." ]
  /\ List.map (sentence_score (Counter (content_tokens cats_body)))
       (split_sentences cats_body) = [4; 5; 5]%Z
  /\ top_indices [4; 5; 5]%Z 2 = [1; 2]
  /\ summarize cats_body 2
     = lit "Dogs are mammals too. Cats and dogs are pets.".
Proof. repeat split; vm_compute; reflexivity. Qed.

(** The summary the specification gives for the example is not the one
    the program returns. *)
Lemma cats_example_not_first_and_third :
  summarize cats_body 2 <> lit "Cats are mammals. Cats and dogs are pets.".
Proof. vm_compute. discriminate. Qed.

(** ** One document *)

(** C9: [process_one] always returns a result.  A failure while fetching
    or tokenizing gives a failed result with an empty title, no keywords
    and the error marker as summary; an empty body gives a failed result
    with the extracted title, no keywords and the fixed marker as summary;
    and the result for a URL depends on nothing but what fetching and
    tokenizing that URL give. *)
Theorem process_one_never_raises :
  forall (fetch_html : str -> outcome str)
         (html_events : str -> outcome (list event))
         (url : str) (max_sentences topk : Z),
  (exists r, process_one fetch_html html_events url max_sentences topk = Ret r)
  /\ (forall e,
        fetch_html url = Raise e ->
        process_one fetch_html html_events url max_sentences topk
        = Ret (mkResult url [] [] (error_marker e) false []))
  /\ (forall html e,
        fetch_html url = Ret html -> html_events html = Raise e ->
        process_one fetch_html html_events url max_sentences topk
        = Ret (mkResult url [] [] (error_marker e) false []))
  /\ (forall html evs,
        fetch_html url = Ret html -> html_events html = Ret evs ->
        get_text (feed evs) = [] ->
        process_one fetch_html html_events url max_sentences topk
        = Ret (mkResult url (get_title (feed evs)) [] EXTRACTION_FAILED
                 false []))
  /\ (forall fetch_html', 
        fetch_html' url = fetch_html url ->
        process_one fetch_html' html_events url max_sentences topk
        = process_one fetch_html html_events url max_sentences topk).
Proof.
  intros fetch_html html_events url n k. unfold process_one.
  split; [|split; [|split; [|split]]].
  - destruct (fetch_html url) as [html|e]; simpl; [|eauto].
    destruct (html_events html) as [evs|e]; simpl; [|eauto].
    destruct (get_text (feed evs)); simpl; eauto.
  - intros e ->. reflexivity.
  - intros html e Hf He. rewrite Hf. cbn [bind]. rewrite He. reflexivity.
  - intros html evs Hf He Hb. rewrite Hf. cbn [bind]. rewrite He.
    cbn [bind]. rewrite Hb. reflexivity.
  - intros fetch' ->. reflexivity.
Qed.

Lemma process_one_never_raises_witness :
  process_one (fun _ => Raise (lit "timed out")) (fun _ => Ret [])
    (lit "http://example.com/") 3 5
  = Ret (mkResult (lit "http://example.com/") [] []
           (error_marker (lit "timed out")) false []).
Proof.
  apply (proj1 (proj2 (@process_one_never_raises
                         (fun _ => Raise (lit "timed out"))
                         (fun _ => Ret [])
                         (lit "http://example.com/") 3 5))).
  reflexivity.
Defined.

(** * Further properties *)

(** ** Tokens *)

Lemma span_len_le : forall p t, span_len p t <= List.length t.
Proof.
  intros p t. induction t as [|c t IH]; simpl; [lia|].
  destruct (p c); simpl; lia.
Qed.

Lemma span_len_forallb : forall p t,
  forallb p (firstn (span_len p t) t) = true.
Proof.
  intros p t. induction t as [|c t IH]; simpl; [reflexivity|].
  destruct (p c) eqn:E; simpl; [|reflexivity]. now rewrite E, IH.
Qed.

Lemma infix_refl : forall t, infix t t.
Proof. intro t. exists [], []. now rewrite app_nil_r. Qed.

Lemma infix_tail : forall s c t, infix s t -> infix s (c :: t).
Proof. intros s c t (a & b & ->). now exists (c :: a), b. Qed.

Lemma infix_firstn : forall n t, infix (firstn n t) t.
Proof.
  intros n t. exists [], (skipn n t). simpl. now rewrite firstn_skipn.
Qed.

(** Every match reported by [re.findall] is a match of the pattern at
    some position of the text. *)
Lemma re_findall_aux_matches : forall m t k tok,
  In tok (re_findall_aux m k t) ->
  exists u n, infix u t /\ m u = Some (S n) /\ tok = firstn (S n) u.
Proof.
  intros m t. induction t as [|c t IH]; intros k tok H; [contradiction|].
  cbn [re_findall_aux] in H.
  assert (Hrec : forall j, In tok (re_findall_aux m j t) ->
            exists u n, infix u (c :: t) /\ m u = Some (S n)
                        /\ tok = firstn (S n) u).
  { intros j Hj. destruct (IH _ _ Hj) as (u & n & Hu & Hm & Ht).
    exists u, n. split; [now apply infix_tail | now split]. }
  destruct k as [|k]; [|now apply Hrec with k].
  destruct (m (c :: t)) as [[|n]|] eqn:Em; try (now apply Hrec with 0).
  destruct H as [<-|H]; [|now apply Hrec with n].
  exists (c :: t), n. split; [apply infix_refl | now split].
Qed.

Lemma lower_word_char : forall c,
  is_word_char c = true -> is_token_char (lower_char c) = true.
Proof.
  intros c H. unfold is_word_char, is_token_char, lower_char in *.
  repeat match goal with
         | |- context [(?a <=? ?b)%N] => destruct (N.leb_spec a b)
         | H : context [(?a <=? ?b)%N] |- _ => destruct (N.leb_spec a b)
         end; simpl in *; try reflexivity; try discriminate; lia.
Qed.

(** X1: every token is at least two characters long, holds nothing but
    lower-case Latin letters and Hangul syllables, and is the lower-cased
    form of a piece of the text. *)
Theorem tokenize_tokens_wellformed : forall text tok,
  In tok (tokenize text) ->
  2 <= List.length tok
  /\ forallb is_token_char tok = true
  /\ exists w, infix w text /\ tok = lower w.
Proof.
  intros text tok H. unfold tokenize in H.
  apply in_map_iff in H. destruct H as (w & <- & Hw).
  apply re_findall_aux_matches in Hw.
  destruct Hw as (u & n & Hu & Hm & ->).
  unfold re_word in Hm.
  destruct (span_len is_word_char u) as [|[|j]] eqn:Es; try discriminate.
  injection Hm as <-.
  assert (Hle : S (S j) <= List.length u)
    by (rewrite <- Es; apply span_len_le).
  split; [|split].
  - unfold lower. rewrite length_map, length_firstn. lia.
  - unfold lower. rewrite forallb_forall. intros c Hc.
    apply in_map_iff in Hc. destruct Hc as (c0 & <- & Hc0).
    apply lower_word_char.
    pose proof (span_len_forallb is_word_char u) as Hall.
    rewrite Es in Hall. rewrite forallb_forall in Hall. now apply Hall.
  - exists (firstn (S (S j)) u). split; [|reflexivity].
    eapply infix_trans; [apply infix_firstn | exact Hu].
Qed.

Lemma tokenize_tokens_wellformed_witness :
  In (lit "cats") (tokenize cats_body)
  /\ 2 <= List.length (lit "cats").
Proof.
  assert (H : In (lit "cats") (tokenize cats_body))
    by (vm_compute; now left).
  split; [exact H|].
  exact (proj1 (@tokenize_tokens_wellformed cats_body (lit "cats") H)).
Defined.

(** ** Counters *)

Lemma str_eqb_sym : forall a b, str_eqb a b = str_eqb b a.
Proof.
  intros a b. destruct (str_eqb a b) eqn:E.
  - apply str_eqb_eq in E. subst. now rewrite str_eqb_refl.
  - symmetry. apply str_eqb_neq. apply str_eqb_neq in E. congruence.
Qed.

Lemma counter_get_incr : forall c w' w,
  counter_get (counter_incr w' c) w
  = (counter_get c w + if str_eqb w w' then 1 else 0)%Z.
Proof.
  induction c as [|[k n] c IH]; intros w' w; simpl.
  - rewrite (str_eqb_sym w' w). now destruct (str_eqb w w').
  - destruct (str_eqb k w') eqn:Ek; simpl.
    + apply str_eqb_eq in Ek. subst k. rewrite (str_eqb_sym w' w).
      destruct (str_eqb w w'); lia.
    + destruct (str_eqb k w) eqn:E; [|apply IH].
      apply str_eqb_eq in E. subst k. rewrite Ek. lia.
Qed.

Lemma occ_cons : forall w x ws,
  occ w (x :: ws) = (if str_eqb w x then 1 else 0) + occ w ws.
Proof. intros. unfold occ. simpl. now destruct (str_eqb w x). Qed.

Lemma counter_get_fold : forall ws acc w,
  counter_get (fold_left (fun c x => counter_incr x c) ws acc) w
  = (counter_get acc w + Z.of_nat (occ w ws))%Z.
Proof.
  induction ws as [|x ws IH]; intros acc w; simpl.
  - unfold occ. simpl. lia.
  - rewrite IH, counter_get_incr, occ_cons.
    destruct (str_eqb w x); lia.
Qed.

Lemma counter_get_missing : forall c w,
  ~ In w (keys c) -> counter_get c w = 0%Z.
Proof.
  induction c as [|[k n] c IH]; intros w H; [reflexivity|]. simpl in *.
  destruct (str_eqb k w) eqn:E.
  - apply str_eqb_eq in E. exfalso. apply H. now left.
  - apply IH. intro Hin. apply H. now right.
Qed.

Lemma occ_pos_In : forall w ws, 1 <= occ w ws <-> In w ws.
Proof.
  intros w ws. induction ws as [|x ws IH].
  - unfold occ. simpl. split; [lia | tauto].
  - rewrite occ_cons. simpl. destruct (str_eqb w x) eqn:E.
    + apply str_eqb_eq in E. subst. split; [now left | lia].
    + apply str_eqb_neq in E. rewrite <- IH. simpl.
      split; [intro; right; lia|]. intros [H|H]; [congruence | lia].
Qed.

Lemma Counter_get_occ : forall ws w,
  counter_get (Counter ws) w = Z.of_nat (occ w ws).
Proof. intros. unfold Counter. rewrite counter_get_fold. simpl. lia. Qed.

Lemma Counter_key_iff : forall ws w, In w (keys (Counter ws)) <-> In w ws.
Proof.
  intros ws w. destruct (Counter_keys ws) as [_ Hincl].
  split; [apply Hincl|]. intro Hin.
  destruct (in_dec (list_eq_dec N.eq_dec) w (keys (Counter ws)))
    as [H|H]; [exact H|].
  apply counter_get_missing in H. rewrite Counter_get_occ in H.
  apply occ_pos_In in Hin. lia.
Qed.

(** X2: the frequency table returned with the keywords gives, for every
    word, the number of times it occurs among the non-stopword tokens of
    the text: zero for a stopword and for a word that is no token of the
    text, at least one for every other token. *)
Theorem frequency_table_counts_tokens : forall text k w,
  counter_get (snd (keyword_topk text k)) w
  = Z.of_nat (occ w (content_tokens text))
  /\ (is_stopword w = true ->
      counter_get (snd (keyword_topk text k)) w = 0%Z)
  /\ (~ In w (tokenize text) ->
      counter_get (snd (keyword_topk text k)) w = 0%Z)
  /\ (In w (tokenize text) -> is_stopword w = false ->
      (1 <= counter_get (snd (keyword_topk text k)) w)%Z).
Proof.
  intros text k w. unfold keyword_topk. cbn [snd].
  rewrite Counter_get_occ.
  pose proof (occ_pos_In w (content_tokens text)) as Hpos.
  assert (Hin : In w (content_tokens text)
                <-> In w (tokenize text) /\ is_stopword w = false).
  { unfold content_tokens. rewrite filter_In.
    now rewrite negb_true_iff. }
  split; [reflexivity|]. split; [|split].
  - intro Hs. destruct (Nat.eq_dec (occ w (content_tokens text)) 0)
      as [E|NE]; [now rewrite E|].
    assert (H1 : 1 <= occ w (content_tokens text)) by lia.
    apply Hpos, Hin in H1. destruct H1 as [_ H1]. congruence.
  - intro Hno. destruct (Nat.eq_dec (occ w (content_tokens text)) 0)
      as [E|NE]; [now rewrite E|].
    assert (H1 : 1 <= occ w (content_tokens text)) by lia.
    apply Hpos, Hin in H1. tauto.
  - intros Ht Hs.
    assert (H1 : 1 <= occ w (content_tokens text))
      by (apply Hpos, Hin; now split).
    lia.
Qed.

Lemma uniq_aux_ext : forall ws s1 s2,
  (forall x, str_in x s1 = str_in x s2) ->
  uniq_aux s1 ws = uniq_aux s2 ws.
Proof.
  induction ws as [|w ws IH]; intros s1 s2 H; [reflexivity|]. simpl.
  rewrite <- H. destruct (str_in w s1); [now apply IH|].
  f_equal. apply IH. intro x. simpl. now rewrite H.
Qed.

Lemma str_in_app : forall x l1 l2,
  str_in x (l1 ++ l2) = str_in x l1 || str_in x l2.
Proof. intros. unfold str_in. apply existsb_app. Qed.

Lemma keys_fold : forall ws acc,
  keys (fold_left (fun c x => counter_incr x c) ws acc)
  = keys acc ++ uniq_aux (keys acc) ws.
Proof.
  induction ws as [|w ws IH]; intro acc; simpl.
  - now rewrite app_nil_r.
  - rewrite IH.
    destruct (counter_incr_keys w acc) as [[Hin Hk] | [Hout Hk]]; rewrite Hk.
    + apply str_in_In in Hin. now rewrite Hin.
    + assert (Hf : str_in w (keys acc) = false).
      { destruct (str_in w (keys acc)) eqn:E; [|reflexivity].
        apply str_in_In in E. contradiction. }
      rewrite Hf, <- app_assoc. simpl. do 2 f_equal.
      apply uniq_aux_ext. intro x. rewrite str_in_app. simpl.
      rewrite orb_false_r. apply orb_comm.
Qed.

(** X3: the words of the frequency table are the distinct non-stopword
    tokens of the text, each once, in the order in which they first occur
    in the text. *)
Theorem frequency_table_keys_in_first_occurrence_order : forall text k,
  keys (snd (keyword_topk text k))
  = first_occurrences (content_tokens text)
  /\ NoDup (keys (snd (keyword_topk text k)))
  /\ (forall w,
        In w (keys (snd (keyword_topk text k)))
        <-> In w (tokenize text) /\ is_stopword w = false).
Proof.
  intros text k. unfold keyword_topk. cbn [snd]. split; [|split].
  - unfold Counter. now rewrite keys_fold.
  - apply Counter_keys.
  - intro w. rewrite Counter_key_iff. unfold content_tokens.
    rewrite filter_In. now rewrite negb_true_iff.
Qed.

(** ** Keywords *)

Lemma StronglySorted_app_cross : forall (A : Type) (R : A -> A -> Prop) a b,
  StronglySorted R (a ++ b) ->
  forall x y, In x a -> In y b -> R x y.
Proof.
  intros A R a b. induction a as [|z a IH]; intros Hs x y Hx Hy;
    [contradiction|].
  simpl in Hs. inversion Hs as [|? ? Hs' Hall]; subst.
  destruct Hx as [<-|Hx].
  - rewrite Forall_forall in Hall. apply Hall. apply in_or_app. now right.
  - now apply IH.
Qed.

Lemma in_keys : forall (c : counter) w n, In (w, n) c -> In w (keys c).
Proof.
  intros c w n H. unfold keys. change w with (fst (w, n)). now apply in_map.
Qed.

Lemma keys_in : forall (c : counter) w, In w (keys c) -> exists n, In (w, n) c.
Proof.
  intros c w H. unfold keys in H. apply in_map_iff in H.
  destruct H as ([w' n] & <- & H). now exists n.
Qed.

Lemma most_common_split : forall c k,
  Permutation
    (most_common c k
     ++ skipn (Z.to_nat k) (sorted_desc_by (fun it => snd it) c)) c
  /\ StronglySorted (fun x y : str * Z => (snd x >= snd y)%Z)
       (most_common c k
        ++ skipn (Z.to_nat k) (sorted_desc_by (fun it => snd it) c)).
Proof.
  intros c k. unfold most_common. rewrite firstn_skipn.
  split; [apply sorted_desc_by_perm | apply sorted_desc_by_sorted].
Qed.

Lemma most_common_incl : forall c k, incl (most_common c k) c.
Proof.
  intros c k it Hit. unfold most_common in Hit. apply incl_firstn in Hit.
  eapply Permutation_in; [apply sorted_desc_by_perm | exact Hit].
Qed.

Lemma most_common_keys_NoDup : forall c k,
  NoDup (keys c) -> NoDup (keys (most_common c k)).
Proof.
  intros c k Hnd. unfold most_common, keys. rewrite <- firstn_map.
  apply NoDup_firstn.
  eapply Permutation_NoDup; [|exact Hnd].
  apply Permutation_map. symmetry. apply sorted_desc_by_perm.
Qed.

(** X4: the keywords are pairwise distinct, each of them is a token of
    the text, and each has a count of at least one in the returned
    table. *)
Theorem keyword_topk_keywords_from_text : forall text k,
  NoDup (fst (keyword_topk text k))
  /\ Forall
       (fun w =>
          In w (tokenize text)
          /\ (1 <= counter_get (snd (keyword_topk text k)) w)%Z)
       (fst (keyword_topk text k)).
Proof.
  intros text k. unfold keyword_topk. cbn [fst snd]. split.
  - apply most_common_keys_NoDup. apply Counter_keys.
  - apply Forall_forall. intros w Hw. apply keys_in in Hw.
    destruct Hw as [n Hn]. apply most_common_incl in Hn.
    apply in_keys in Hn. apply (proj1 (Counter_key_iff _ _)) in Hn.
    split.
    + unfold content_tokens in Hn. apply filter_In in Hn. tauto.
    + rewrite Counter_get_occ. apply occ_pos_In in Hn. lia.
Qed.

(** X5: the keywords are the most frequent words: a word of the table
    that is not among the keywords has a count no greater than the count
    of any keyword. *)
Theorem keyword_topk_takes_the_most_frequent : forall text k w w',
  In w (fst (keyword_topk text k)) ->
  In w' (keys (snd (keyword_topk text k))) ->
  ~ In w' (fst (keyword_topk text k)) ->
  (counter_get (snd (keyword_topk text k)) w'
   <= counter_get (snd (keyword_topk text k)) w)%Z.
Proof.
  intros text k w w'. unfold keyword_topk. cbn [fst snd].
  set (freq := Counter (content_tokens text)).
  intros Hw Hw' Hout.
  assert (Hnd : NoDup (keys freq)) by apply Counter_keys.
  destruct (most_common_split freq k) as [Hperm Hsorted].
  apply keys_in in Hw. destruct Hw as [n Hn].
  apply keys_in in Hw'. destruct Hw' as [n' Hn'].
  rewrite (@counter_get_In freq w n Hnd (@most_common_incl freq k _ Hn)).
  rewrite (@counter_get_In freq w' n' Hnd Hn').
  apply (Permutation_in _ (Permutation_sym Hperm)) in Hn'.
  apply in_app_or in Hn'. destruct Hn' as [Hin|Hin].
  - exfalso. apply Hout. eapply in_keys. exact Hin.
  - pose proof (@StronglySorted_app_cross _ _ _ _ Hsorted _ _ Hn Hin) as Hge.
    simpl in Hge. lia.
Qed.

Lemma keyword_topk_takes_the_most_frequent_witness :
  (counter_get (snd (keyword_topk cats_body 3)) (lit "pets")
   <= counter_get (snd (keyword_topk cats_body 3)) (lit "dogs"))%Z.
Proof.
  apply (@keyword_topk_takes_the_most_frequent cats_body 3
           (lit "dogs") (lit "pets")).
  - vm_compute. tauto.
  - vm_compute. tauto.
  - vm_compute. intros [H|[H|[H|[]]]]; discriminate H.
Defined.

(** X6: for a non-negative [k] the number of keywords is [k] or the
    number of distinct non-stopword tokens, whichever is smaller; a
    negative [k] gives none. *)
Theorem keyword_topk_size : forall text k,
  List.length (fst (keyword_topk text k))
  = Nat.min (Z.to_nat k)
      (List.length (first_occurrences (content_tokens text))).
Proof.
  intros text k. unfold keyword_topk. cbn [fst].
  rewrite length_map. unfold most_common. rewrite length_firstn.
  rewrite (Permutation_length (sorted_desc_by_perm _ _)).
  f_equal. unfold first_occurrences.
  change (uniq_aux [] (content_tokens text))
    with (keys (@nil (str * Z)) ++ uniq_aux (keys []) (content_tokens text)).
  rewrite <- keys_fold. unfold keys. now rewrite length_map.
Qed.

Lemma filter_by_count : forall (freq : counter) v l,
  NoDup (keys freq) -> incl l freq ->
  keys (List.filter (fun it : str * Z => (snd it =? v)%Z) l)
  = List.filter (fun w => (counter_get freq w =? v)%Z) (keys l).
Proof.
  intros freq v l Hnd. induction l as [|[w n] l IH]; intro Hincl;
    [reflexivity|].
  assert (Hl : incl l freq) by (intros x Hx; apply Hincl; now right).
  simpl. rewrite (@counter_get_In freq w n Hnd) by (apply Hincl; now left).
  destruct (n =? v)%Z; simpl; now rewrite IH.
Qed.

(** X7: ties are broken by first occurrence: among the words of any one
    count, the keywords are the earliest ones of the table, in the order
    of the table. *)
Theorem keyword_topk_ties_in_table_order : forall text k v,
  exists rest,
    List.filter (fun w => (counter_get (snd (keyword_topk text k)) w =? v)%Z)
      (keys (snd (keyword_topk text k)))
    = List.filter
        (fun w => (counter_get (snd (keyword_topk text k)) w =? v)%Z)
        (fst (keyword_topk text k))
      ++ rest.
Proof.
  intros text k v. unfold keyword_topk. cbn [fst snd].
  set (freq := Counter (content_tokens text)).
  assert (Hnd : NoDup (keys freq)) by apply Counter_keys.
  set (sorted := sorted_desc_by (fun it : str * Z => snd it) freq).
  exists (keys (List.filter (fun it : str * Z => (snd it =? v)%Z)
                  (skipn (Z.to_nat k) sorted))).
  change (List.map fst (most_common freq k)) with (keys (most_common freq k)).
  rewrite <- (filter_by_count v Hnd (@incl_refl _ freq)).
  rewrite <- (filter_by_count v Hnd (@most_common_incl freq k)).
  unfold keys. rewrite <- map_app, <- filter_app.
  unfold most_common. fold sorted. rewrite firstn_skipn.
  unfold sorted. now rewrite sorted_desc_by_stable.
Qed.

(** ** Sentences *)

Lemma lstrip_length : forall t, List.length (lstrip t) <= List.length t.
Proof.
  induction t as [|c t IH]; simpl; [lia|].
  destruct (isspace c); simpl; lia.
Qed.

Lemma lstrip_fixed_head : forall c t,
  lstrip (c :: t) = c :: t -> isspace c = false.
Proof.
  intros c t H. simpl in H. destruct (isspace c); [|reflexivity].
  pose proof (lstrip_length t) as Hl. rewrite H in Hl. simpl in Hl. lia.
Qed.

Lemma lstrip_idem : forall t, lstrip (lstrip t) = lstrip t.
Proof.
  induction t as [|c t IH]; simpl; [reflexivity|].
  destruct (isspace c) eqn:E; [exact IH|]. simpl. now rewrite E.
Qed.

Lemma lstrip_snoc : forall a c,
  isspace c = false -> lstrip (a ++ [c]) = lstrip a ++ [c].
Proof.
  intros a c Hc. induction a as [|x a IH]; simpl.
  - now rewrite Hc.
  - destruct (isspace x); [exact IH | reflexivity].
Qed.

Lemma rstrip_cons : forall c t,
  isspace c = false -> rstrip (c :: t) = c :: rstrip t.
Proof.
  intros c t Hc. unfold rstrip. simpl rev.
  rewrite lstrip_snoc by assumption. now rewrite rev_app_distr.
Qed.

Lemma rstrip_idem : forall t, rstrip (rstrip t) = rstrip t.
Proof.
  intro t. unfold rstrip. now rewrite rev_involutive, lstrip_idem.
Qed.

Lemma strip_trimmed : forall t, trimmed (strip t).
Proof.
  intro t. unfold trimmed, strip. split; [|apply rstrip_idem].
  pose proof (lstrip_idem t) as Hl.
  destruct (lstrip t) as [|c u]; [reflexivity|].
  apply lstrip_fixed_head in Hl.
  rewrite rstrip_cons by assumption. simpl. now rewrite Hl.
Qed.

Lemma trimmed_strip : forall f, trimmed f -> strip f = f.
Proof. intros f [Hl Hr]. unfold strip. now rewrite Hl. Qed.

Lemma strip_idem : forall t, strip (strip t) = strip t.
Proof. intro t. apply trimmed_strip. apply strip_trimmed. Qed.

Lemma infix_In : forall s t c, infix s t -> In c s -> In c t.
Proof.
  intros s t c (a & b & ->) H. apply in_or_app. right.
  apply in_or_app. now left.
Qed.

Lemma re_sub_spaces_chars : forall t k x,
  In x (re_sub_aux re_spaces [SP] k t) -> x = SP \/ isspace x = false.
Proof.
  induction t as [|c t IH]; intros k x H; [contradiction|].
  cbn [re_sub_aux] in H. destruct k as [|k]; [|now apply IH with k].
  unfold re_spaces in H. cbn [span_len] in H.
  destruct (isspace c) eqn:E.
  - destruct H as [<-|H]; [now left | now apply IH with (span_len isspace t)].
  - destruct H as [<-|H]; [now right | now apply IH with 0].
Qed.

(** X8: every sentence is longer than two characters, has no whitespace
    at either end, and holds no whitespace character other than the
    space. *)
Theorem split_sentences_shape : forall text s,
  In s (split_sentences text) ->
  (2 < len s)%Z
  /\ strip s = s
  /\ (forall c, In c s -> isspace c = true -> c = SP).
Proof.
  intros text s H. unfold split_sentences in H.
  destruct (strip (re_sub re_spaces [SP] text)) as [|c0 t0] eqn:E;
    [contradiction|].
  apply in_map_iff in H. destruct H as (p & <- & Hp).
  apply filter_In in Hp. destruct Hp as [Hp Hlen].
  split; [now apply Z.ltb_lt|]. split; [apply strip_idem|].
  intros c Hc Hsp.
  apply (@infix_In _ _ c (strip_infix p)) in Hc.
  apply (@infix_In _ _ c (@piece_infix _ _ Hp)) in Hc.
  unfold re_sub in Hc. apply re_sub_aux_chars in Hc.
  destruct Hc as [Hc|[Hc|[]]]; [|now symmetry].
  rewrite <- E in Hc. apply (@infix_In _ _ c (strip_infix _)) in Hc.
  unfold re_sub in Hc. apply re_sub_spaces_chars in Hc.
  destruct Hc as [Hc|Hc]; [exact Hc | congruence].
Qed.

Lemma split_sentences_shape_witness :
  In (lit "It rains.") (split_sentences two_sentences)
  /\ strip (lit "It rains.") = lit "It rains.".
Proof.
  assert (H : In (lit "It rains.") (split_sentences two_sentences))
    by (vm_compute; now left).
  split; [exact H|].
  exact (proj1 (proj2 (@split_sentences_shape two_sentences _ H))).
Defined.

Lemma re_sub_aux_short : forall m repl t k,
  List.length t <= k -> re_sub_aux m repl k t = [].
Proof.
  intros m repl t. induction t as [|c t IH]; intros k H; [reflexivity|].
  simpl in H. destruct k as [|k]; [lia|]. simpl. apply IH. lia.
Qed.

Lemma span_len_all : forall p t,
  forallb p t = true -> span_len p t = List.length t.
Proof.
  intros p t. induction t as [|c t IH]; intro H; [reflexivity|].
  simpl in *. apply andb_true_iff in H. destruct H as [Hc Ht].
  rewrite Hc. now rewrite IH.
Qed.

Ltac decide_comparisons H :=
  repeat match type of H with
         | context [(?a <=? ?b)%N] =>
             first
               [ replace (a <=? b)%N with true in H
                   by (symmetry; apply N.leb_le; lia)
               | replace (a <=? b)%N with false in H
                   by (symmetry; apply N.leb_gt; lia) ]
         | context [(?a =? ?b)%N] =>
             replace (a =? b)%N with false in H
               by (symmetry; apply N.eqb_neq; lia)
         end.

Lemma word_char_range : forall c,
  is_word_char c = true ->
  (65 <= c <= 122 \/ 44032 <= c <= 55203)%N.
Proof.
  intros c H. unfold is_word_char in H.
  repeat match type of H with
         | context [(?a <=? ?b)%N] => destruct (N.leb_spec a b)
         end; simpl in H; try discriminate; lia.
Qed.

Lemma space_not_word : forall c, isspace c = true -> is_word_char c = false.
Proof.
  intros c H. destruct (is_word_char c) eqn:W; [|reflexivity].
  apply word_char_range in W. unfold isspace in H.
  destruct W as [W|W]; decide_comparisons H; discriminate H.
Qed.

Lemma re_findall_word_spaces : forall t k,
  forallb isspace t = true -> re_findall_aux re_word k t = [].
Proof.
  induction t as [|c t IH]; intros k H; [reflexivity|].
  simpl in H. apply andb_true_iff in H. destruct H as [Hc Ht].
  cbn [re_findall_aux]. destruct k as [|k]; [|now apply IH].
  unfold re_word. cbn [span_len]. rewrite (space_not_word _ Hc).
  now apply IH.
Qed.

(** X9: a text made of whitespace only, the empty text included, has no
    sentence, an empty summary, no keyword and an empty frequency
    table. *)
Theorem whitespace_only_text : forall budget text max_sentences k,
  forallb isspace text = true ->
  split_sentences text = []
  /\ summarize_with budget text max_sentences = []
  /\ keyword_topk text k = ([], []).
Proof.
  intros budget text n k H.
  assert (Hs : split_sentences text = []).
  { unfold split_sentences.
    assert (E : strip (re_sub re_spaces [SP] text) = []);
      [|now rewrite E].
    destruct text as [|c t]; [reflexivity|].
    unfold re_sub. cbn [re_sub_aux]. unfold re_spaces.
    rewrite (span_len_all _ _ H). cbn [List.length].
    rewrite re_sub_aux_short by lia. reflexivity. }
  split; [exact Hs|]. split.
  - unfold summarize_with. now rewrite Hs.
  - unfold keyword_topk, content_tokens, tokenize, re_findall.
    rewrite re_findall_word_spaces by assumption. simpl.
    unfold most_common. simpl. now rewrite firstn_nil.
Qed.

Lemma whitespace_only_text_witness :
  split_sentences [SP; 10%N; 9%N] = []
  /\ summarize_with 300 [SP; 10%N; 9%N] 3 = []
  /\ keyword_topk [SP; 10%N; 9%N] 5 = ([], []).
Proof.
  apply (@whitespace_only_text 300 [SP; 10%N; 9%N] 3 5). reflexivity.
Defined.

Lemma terminal_not_space : forall c, is_terminal c = true -> isspace c = false.
Proof.
  intros c H. unfold is_terminal in H.
  apply orb_true_iff in H. destruct H as [H|H];
    [apply orb_true_iff in H; destruct H as [H|H]|];
    apply N.eqb_eq in H; subst c; reflexivity.
Qed.

Lemma ends_with_terminal_strip : forall p,
  ends_with_terminal p = true -> ends_with_terminal (strip p) = true.
Proof.
  intros p H. unfold ends_with_terminal in *.
  destruct (rev p) as [|c r] eqn:E; [discriminate|].
  assert (Hp : p = rev r ++ [c]).
  { rewrite <- (rev_involutive p), E. reflexivity. }
  pose proof (terminal_not_space _ H) as Hc.
  unfold strip, rstrip. rewrite rev_involutive. subst p.
  rewrite lstrip_snoc by assumption. rewrite rev_app_distr. simpl.
  now rewrite Hc, H.
Qed.

Lemma boundary_after_terminal : forall c r after,
  sentence_boundary (c :: r) after = true -> is_terminal c = true.
Proof.
  intros c r after H. unfold sentence_boundary in H.
  apply orb_true_iff in H. destruct H as [H|H];
    apply andb_true_iff in H; destruct H as [H _]; [exact H|].
  destruct r as [|d r]; [discriminate|].
  apply andb_true_iff in H. destruct H as [H _].
  apply N.eqb_eq in H. subst c. reflexivity.
Qed.

Lemma re_split_aux_nonempty : forall t before_rev cur,
  re_split_aux before_rev cur t <> [].
Proof.
  induction t as [|c t IH]; intros before_rev cur; simpl; [discriminate|].
  destruct (sentence_boundary before_rev (c :: t)); [discriminate|apply IH].
Qed.

Lemma removelast_cons : forall (A : Type) (x : A) l,
  l <> [] -> removelast (x :: l) = x :: removelast l.
Proof. intros A x [|y l] H; [contradiction | reflexivity]. Qed.

Lemma re_split_aux_endings : forall t before_rev cur,
  piece_follows cur before_rev ->
  Forall (fun p => ends_with_terminal p = true)
    (removelast (re_split_aux before_rev cur t)).
Proof.
  induction t as [|c t IH]; intros before_rev cur Hf; [constructor|].
  cbn [re_split_aux].
  destruct (sentence_boundary before_rev (c :: t)) eqn:Eb.
  - pose proof (@re_split_aux_nonempty t (c :: before_rev) [c]) as Hne.
    rewrite removelast_cons by exact Hne. constructor.
    + unfold ends_with_terminal. rewrite rev_involutive.
      destruct cur as [|c0 cur'].
      * simpl in Hf. subst before_rev. discriminate Eb.
      * destruct Hf as [r ->]. eapply boundary_after_terminal. exact Eb.
    + apply IH. simpl. now exists before_rev.
  - apply IH. simpl. now exists before_rev.
Qed.

(** X10: every sentence except possibly the last one returned ends with
    a full stop, an exclamation mark or a question mark. *)
Theorem split_sentences_endings : forall text,
  exists body tail,
    split_sentences text = body ++ tail
    /\ List.length tail <= 1
    /\ Forall (fun s => ends_with_terminal s = true) body.
Proof.
  intro text. unfold split_sentences.
  destruct (strip (re_sub re_spaces [SP] text)) as [|c0 t0];
    [exists [], []; repeat split; [simpl; lia | constructor]|].
  set (t := re_sub re_footnote [SP] (c0 :: t0)).
  set (keep := fun p : str => (2 <? len (strip p))%Z).
  pose proof (@re_split_aux_nonempty t [] []) as Hne.
  pose proof (@re_split_aux_endings t [] [] eq_refl) as Hend.
  unfold re_split_sentences.
  rewrite (app_removelast_last [] Hne).
  set (init := removelast (re_split_aux [] [] t)) in *.
  set (lastp := last (re_split_aux [] [] t) []).
  exists (List.map strip (List.filter keep init)),
         (List.map strip (List.filter keep [lastp])).
  split; [|split].
  - now rewrite filter_app, map_app.
  - simpl. destruct (keep lastp); simpl; lia.
  - apply Forall_forall. intros s Hs. apply in_map_iff in Hs.
    destruct Hs as (p & <- & Hp). apply filter_In in Hp.
    destruct Hp as [Hp _]. rewrite Forall_forall in Hend.
    apply ends_with_terminal_strip. now apply Hend.
Qed.

(** ** The selection of sentences *)

Lemma length_sort_by : forall (A : Type) (precedes : A -> A -> bool) l,
  List.length (sort_by precedes l) = List.length l.
Proof. intros. apply Permutation_length. apply sort_by_perm. Qed.

Lemma length_top_indices : forall scores n,
  List.length (top_indices scores n)
  = if (0 <=? n)%Z
    then Nat.min (Z.to_nat n) (List.length scores)
    else List.length scores - Z.to_nat (- n).
Proof.
  intros scores n. unfold top_indices, sorted_nat, slice_to.
  rewrite length_sort_by.
  destruct (0 <=? n)%Z; rewrite length_firstn;
    unfold sorted_desc_by; rewrite length_sort_by, length_seq; lia.
Qed.

(** X11: the number of sentences selected: [max_sentences] of them when
    that is between zero and the number of sentences, all of them when it
    is larger, and for a negative [max_sentences] all but that many. *)
Theorem top_indices_count : forall scores max_sentences,
  List.length (top_indices scores max_sentences)
  = if (0 <=? max_sentences)%Z
    then Nat.min (Z.to_nat max_sentences) (List.length scores)
    else List.length scores - Z.to_nat (- max_sentences).
Proof. intros. apply length_top_indices. Qed.

Lemma StronglySorted_filter : forall (A : Type) (R : A -> A -> Prop) f l,
  StronglySorted R l -> StronglySorted R (List.filter f l).
Proof.
  intros A R f l H. induction H as [|x l Hs IH Hall]; simpl; [constructor|].
  destruct (f x); [|exact IH]. constructor; [exact IH|].
  apply Forall_forall. intros y Hy. apply filter_In in Hy.
  rewrite Forall_forall in Hall. now apply Hall.
Qed.

Lemma seq_strictly_sorted : forall n start,
  StronglySorted lt (seq start n).
Proof.
  induction n as [|n IH]; intro start; simpl; constructor.
  - apply IH.
  - apply Forall_forall. intros y Hy. apply in_seq in Hy. lia.
Qed.

(** X12: the selected sentences are the best ones, earlier sentences
    first among equals: a sentence that is not selected scores less than
    every selected sentence, or scores the same and comes later in the
    text. *)
Theorem top_indices_are_the_best : forall scores max_sentences i j,
  In i (top_indices scores max_sentences) ->
  j < List.length scores ->
  ~ In j (top_indices scores max_sentences) ->
  (nth j scores 0 < nth i scores 0)%Z
  \/ (nth j scores 0%Z = nth i scores 0%Z /\ i < j).
Proof.
  intros scores n i j Hi Hj Hout. unfold top_indices in *.
  set (key := fun i : nat => nth i scores 0%Z) in *.
  set (ranked := sorted_desc_by key (seq 0 (List.length scores))) in *.
  destruct (slice_to_firstn n ranked) as [m Em]. rewrite Em in *.
  assert (Hi' : In i (firstn m ranked))
    by (eapply Permutation_in; [apply sorted_nat_perm | exact Hi]).
  assert (Hj' : In j (skipn m ranked)).
  { assert (Hr : In j ranked).
    { eapply Permutation_in;
        [symmetry; apply sorted_desc_by_perm | apply in_seq; lia]. }
    rewrite <- (firstn_skipn m ranked) in Hr.
    apply in_app_or in Hr. destruct Hr as [Hr|Hr]; [|exact Hr].
    exfalso. apply Hout.
    eapply Permutation_in; [symmetry; apply sorted_nat_perm | exact Hr]. }
  assert (Hge : (key i >= key j)%Z).
  { pose proof (sorted_desc_by_sorted key (seq 0 (List.length scores)))
      as Hs.
    fold ranked in Hs. rewrite <- (firstn_skipn m ranked) in Hs.
    exact (@StronglySorted_app_cross _ _ _ _ Hs _ _ Hi' Hj'). }
  destruct (Z.eq_dec (key j) (key i)) as [E|NE]; [|left; unfold key in *; lia].
  right. split; [exact E|].
  set (same := fun x : nat => (key x =? key i)%Z).
  pose proof (sorted_desc_by_stable key (key i) (seq 0 (List.length scores)))
    as Hst.
  fold ranked in Hst. rewrite <- (firstn_skipn m ranked) in Hst.
  rewrite filter_app in Hst.
  assert (Hs : StronglySorted lt
                 (List.filter same (firstn m ranked)
                  ++ List.filter same (skipn m ranked))).
  { unfold same. rewrite Hst. apply StronglySorted_filter.
    apply seq_strictly_sorted. }
  apply (@StronglySorted_app_cross _ _ _ _ Hs i j).
  - apply filter_In. split; [exact Hi'|]. unfold same. apply Z.eqb_refl.
  - apply filter_In. split; [exact Hj'|]. unfold same. now apply Z.eqb_eq.
Qed.

Lemma top_indices_are_the_best_witness :
  (nth 0 [4; 5; 5] 0 < nth 1 [4; 5; 5] 0)%Z
  \/ (nth 0 [4; 5; 5]%Z 0%Z = nth 1 [4; 5; 5]%Z 0%Z /\ 1 < 0).
Proof.
  apply (@top_indices_are_the_best [4; 5; 5]%Z 2 1 0).
  - vm_compute. tauto.
  - simpl. lia.
  - vm_compute. intros [H|[H|[]]]; discriminate H.
Defined.

Lemma clip_len : forall budget s,
  (0 < budget)%Z -> (len (clip budget s) <= budget)%Z.
Proof.
  intros budget s Hb. unfold clip.
  destruct (len s <=? budget)%Z eqn:E; [now apply Z.leb_le|].
  apply Z.leb_gt in E. unfold slice_to.
  replace (0 <=? budget - 1)%Z with true by (symmetry; apply Z.leb_le; lia).
  unfold len in *. rewrite length_app, length_firstn. simpl. lia.
Qed.

Lemma join_len_bound : forall b l,
  (0 <= b)%Z ->
  Forall (fun s => (len s <= b)%Z) l ->
  (len (join [SP] l) <= Z.of_nat (List.length l) * (b + 1))%Z.
Proof.
  intros b l Hb H. induction H as [|p l Hp Hl IH].
  - unfold len. simpl. lia.
  - destruct l as [|q l].
    + unfold len in *. cbn [join List.length]. lia.
    + change (join [SP] (p :: q :: l)) with (p ++ [SP] ++ join [SP] (q :: l)).
      unfold len in *. rewrite !length_app.
      change (List.length (p :: q :: l)) with (S (List.length (q :: l))).
      change (List.length [SP]) with 1. nia.
Qed.

(** X13: with a positive budget the summary has a bounded length: at most
    the budget when the text has no more sentences than asked for, and in
    every case at most [max_sentences] times the budget plus one. *)
Theorem summarize_length_bound : forall budget text max_sentences,
  (0 < budget)%Z -> (0 <= max_sentences)%Z ->
  ((len (split_sentences text) <= max_sentences)%Z ->
     (len (summarize_with budget text max_sentences) <= budget)%Z)
  /\ (len (summarize_with budget text max_sentences)
      <= max_sentences * (budget + 1))%Z.
Proof.
  intros budget text n Hb Hn.
  assert (Hshort : (len (split_sentences text) <= n)%Z ->
            (len (summarize_with budget text n) <= budget)%Z).
  { intro Hle. unfold summarize_with.
    destruct (split_sentences text) as [|s0 sents] eqn:E;
      [unfold len; simpl; lia|].
    replace (len (s0 :: sents) <=? n)%Z with true
      by (symmetry; apply Z.leb_le; exact Hle).
    replace (budget <=? 0)%Z with false by (symmetry; apply Z.leb_gt; lia).
    now apply clip_len. }
  split; [exact Hshort|].
  destruct (Z_le_gt_dec (len (split_sentences text)) n) as [Hle|Hgt].
  - specialize (Hshort Hle).
    destruct (split_sentences text) as [|s0 sents] eqn:E.
    + unfold summarize_with. rewrite E. unfold len. simpl. nia.
    + unfold len in Hle. simpl in Hle. nia.
  - unfold summarize_with.
    destruct (split_sentences text) as [|s0 sents] eqn:E;
      [unfold len; simpl; nia|].
    replace (len (s0 :: sents) <=? n)%Z with false
      by (symmetry; apply Z.leb_gt; lia).
    replace (0 <? budget)%Z with true by (symmetry; apply Z.ltb_lt; lia).
    set (idx := top_indices _ n).
    eapply Z.le_trans.
    + apply join_len_bound with (b := budget); [lia|].
      apply Forall_forall. intros s Hs. apply in_map_iff in Hs.
      destruct Hs as (s' & <- & _). now apply clip_len.
    + rewrite !length_map. unfold idx. rewrite length_top_indices.
      replace (0 <=? n)%Z with true by (symmetry; apply Z.leb_le; lia).
      nia.
Qed.

Lemma summarize_length_bound_witness :
  (len (summarize_with 10 cats_body 2) <= 2 * (10 + 1))%Z.
Proof.
  apply (@summarize_length_bound 10 cats_body 2); lia.
Defined.

(** ** What the parser collects *)

Lemma start_collected : forall p t a,
  title_parts (handle_starttag p t a) = title_parts p
  /\ paras (handle_starttag p t a) = paras p.
Proof. intros p t a. unfold handle_starttag. split; split_ifs. Qed.

Lemma end_collected : forall p t,
  title_parts (handle_endtag p t) = title_parts p
  /\ paras (handle_endtag p t) = paras p.
Proof. intros p t. unfold handle_endtag. split; split_ifs. Qed.

(** One event leaves the collected text as it is or adds one stripped,
    non-empty fragment to the title or to the body. *)
Lemma handle_collected : forall p e,
  (title_parts (handle p e) = title_parts p
   /\ paras (handle p e) = paras p)
  \/ exists d,
       strip d <> []
       /\ ((title_parts (handle p e) = title_parts p ++ [strip d]
            /\ paras (handle p e) = paras p)
           \/ (title_parts (handle p e) = title_parts p
               /\ paras (handle p e) = paras p ++ [strip d])).
Proof.
  intros p e. destruct e as [t a|t|d]; cbn [handle].
  - left. apply start_collected.
  - left. apply end_collected.
  - unfold handle_data.
    destruct (nonempty (skip_stack p) || nonempty (exclude_stack p));
      [left; now split|].
    destruct (strip d) as [|c txt] eqn:E; [left; now split|].
    destruct (in_title p).
    + right. exists d. rewrite E. split; [discriminate|]. left. now split.
    + destruct (in_p p && in_scope p); [|left; now split].
      right. exists d. rewrite E. split; [discriminate|]. right. now split.
Qed.

Lemma collected_invariant : forall (P : str -> Prop),
  (forall d, strip d <> [] -> P (strip d)) ->
  forall evs p,
    Forall P (title_parts p) -> Forall P (paras p) ->
    Forall P (title_parts (run p evs)) /\ Forall P (paras (run p evs)).
Proof.
  intros P HP evs. induction evs as [|e evs IH]; intros p Ht Hb;
    [now split|].
  rewrite run_cons.
  destruct (handle_collected p e)
    as [[E1 E2] | (d & Hd & [[E1 E2] | [E1 E2]])];
    apply IH; rewrite ?E1, ?E2; try assumption;
    apply Forall_app; (split; [assumption|]);
    constructor; [now apply HP | constructor | now apply HP | constructor].
Qed.

(** X14: every fragment the parser collects, for the title or for the
    body, is non-empty and has no whitespace at either end. *)
Theorem collected_fragments_are_stripped : forall evs,
  Forall (fun f => f <> [] /\ strip f = f) (title_parts (feed evs))
  /\ Forall (fun f => f <> [] /\ strip f = f) (paras (feed evs)).
Proof.
  intro evs. unfold feed. apply collected_invariant.
  - intros d Hd. split; [exact Hd | apply strip_idem].
  - constructor.
  - constructor.
Qed.

Lemma rev_eq_inv : forall (A : Type) (a b : list A), rev a = rev b -> a = b.
Proof.
  intros A a b H. rewrite <- (rev_involutive a), <- (rev_involutive b).
  now rewrite H.
Qed.

Lemma rstrip_app_trimmed : forall a b,
  b <> [] -> rstrip b = b -> rstrip (a ++ b) = a ++ b.
Proof.
  intros a b Hne Hb. unfold rstrip in *.
  assert (Hl : lstrip (rev b) = rev b).
  { apply rev_eq_inv. now rewrite rev_involutive. }
  rewrite rev_app_distr.
  destruct (rev b) as [|c r] eqn:E.
  - exfalso. apply Hne. apply rev_eq_inv. now rewrite E.
  - apply lstrip_fixed_head in Hl. simpl. rewrite Hl.
    change (c :: r ++ rev a) with ((c :: r) ++ rev a).
    rewrite <- E, <- rev_app_distr. apply rev_involutive.
Qed.

Lemma join_nonempty : forall l,
  Forall (fun f : str => f <> []) l -> l <> [] -> join [SP] l <> [].
Proof.
  intros l H Hne. destruct H as [|p l Hp Hl]; [contradiction|].
  destruct l as [|q l]; simpl; [exact Hp|].
  destruct p; [contradiction | discriminate].
Qed.

Lemma join_trimmed : forall l,
  Forall (fun f => f <> [] /\ trimmed f) l -> trimmed (join [SP] l).
Proof.
  intros l H. induction H as [|p l [Hp [Hpl Hpr]] Hl IH];
    [split; reflexivity|].
  destruct l as [|q l]; [now split|].
  change (join [SP] (p :: q :: l)) with (p ++ [SP] ++ join [SP] (q :: l)).
  destruct IH as [_ IHr]. split.
  - destruct p as [|c p']; [contradiction|].
    apply lstrip_fixed_head in Hpl. simpl. now rewrite Hpl.
  - rewrite app_assoc. apply rstrip_app_trimmed; [|exact IHr].
    apply join_nonempty; [|discriminate].
    eapply Forall_impl; [|exact Hl]. intros f Hf. apply Hf.
Qed.

Lemma joined_text : forall l,
  Forall (fun f => f <> [] /\ trimmed f) l ->
  strip (join [SP] l) = join [SP] l
  /\ (strip (join [SP] l) = [] <-> l = []).
Proof.
  intros l H.
  assert (E : strip (join [SP] l) = join [SP] l)
    by (apply trimmed_strip; now apply join_trimmed).
  split; [exact E|]. rewrite E. split.
  - intro Hj. destruct l as [|p l]; [reflexivity|]. exfalso.
    revert Hj. apply join_nonempty; [|discriminate].
    eapply Forall_impl; [|exact H]. intros f Hf. apply Hf.
  - intros ->. reflexivity.
Qed.

Lemma collected_trimmed : forall evs,
  Forall (fun f => f <> [] /\ trimmed f) (title_parts (feed evs))
  /\ Forall (fun f => f <> [] /\ trimmed f) (paras (feed evs)).
Proof.
  intro evs. unfold feed. apply collected_invariant.
  - intros d Hd. split; [exact Hd | apply strip_trimmed].
  - constructor.
  - constructor.
Qed.

(** X15: the title and the body are the collected fragments joined by
    single spaces, the final strip changing nothing; the body is empty
    exactly when no paragraph text was collected, and the title likewise. *)
Theorem extracted_text_is_joined_fragments : forall evs,
  get_text (feed evs) = join [SP] (paras (feed evs))
  /\ get_title (feed evs) = join [SP] (title_parts (feed evs))
  /\ (get_text (feed evs) = [] <-> paras (feed evs) = [])
  /\ (get_title (feed evs) = [] <-> title_parts (feed evs) = []).
Proof.
  intro evs. destruct (collected_trimmed evs) as [Ht Hb].
  destruct (joined_text Ht) as [Et Ht0], (joined_text Hb) as [Eb Hb0].
  unfold get_text, get_title. tauto.
Qed.

(** X16: text once collected stays: feeding more events only appends to
    the title fragments and to the body fragments. *)
Theorem collected_text_only_grows : forall evs p,
  (exists more, title_parts (run p evs) = title_parts p ++ more)
  /\ (exists more, paras (run p evs) = paras p ++ more).
Proof.
  induction evs as [|e evs IH]; intro p.
  - split; exists []; simpl; now rewrite app_nil_r.
  - rewrite run_cons. destruct (IH (handle p e)) as [[m1 E1] [m2 E2]].
    rewrite E1, E2.
    destruct (handle_collected p e)
      as [[H1 H2] | (d & _ & [[H1 H2] | [H1 H2]])]; rewrite H1, H2;
      split; rewrite <- ?app_assoc; eauto.
Qed.

Lemma Forall_removelast : forall (A : Type) (P : A -> Prop) l,
  Forall P l -> Forall P (removelast l).
Proof.
  intros A P l H. induction H as [|x l Hx Hl IH]; [constructor|].
  destruct l as [|y l]; [constructor|].
  rewrite removelast_cons by discriminate. now constructor.
Qed.

Lemma excluded_tag_listed : forall t a,
  is_excluded t a = true -> In t EXCLUDING_TAGS.
Proof.
  intros t a H. unfold is_excluded, exclude_arm_of in H.
  destruct (str_in t [Tag.nav; Tag.footer; Tag.aside; Tag.table]) eqn:E1.
  { apply str_in_In in E1. unfold EXCLUDING_TAGS.
    repeat (destruct E1 as [<-|E1]; [simpl; tauto|]). contradiction. }
  destruct (str_eqb t Tag.div) eqn:E2.
  { apply str_eqb_eq in E2. subst. simpl. tauto. }
  destruct (str_in t [Tag.ol; Tag.ul]) eqn:E3.
  { apply str_in_In in E3. unfold EXCLUDING_TAGS.
    repeat (destruct E3 as [<-|E3]; [simpl; tauto|]). contradiction. }
  destruct (str_eqb t Tag.table) eqn:E4.
  { apply str_eqb_eq in E4. subst. simpl. tauto. }
  destruct (str_eqb t Tag.sup) eqn:E5; [|discriminate].
  apply str_eqb_eq in E5. subst. simpl. tauto.
Qed.

Lemma stacks_step : forall p e,
  Forall (fun t => is_skip_tag t = true) (skip_stack p) ->
  Forall (fun t => In t EXCLUDING_TAGS) (exclude_stack p) ->
  Forall (fun t => is_skip_tag t = true) (skip_stack (handle p e))
  /\ Forall (fun t => In t EXCLUDING_TAGS) (exclude_stack (handle p e)).
Proof.
  intros p e Hs He. destruct e as [t a|t|d]; cbn [handle].
  - unfold handle_starttag. destruct (is_skip_tag t) eqn:Et.
    + fields. split; [|assumption]. unfold push. apply Forall_app.
      split; [assumption | now repeat constructor].
    + destruct (is_excluded t a) eqn:Ex.
      * fields. split; [assumption|]. unfold push. apply Forall_app.
        split; [assumption|]. constructor; [|constructor].
        now apply excluded_tag_listed with a.
      * split; split_ifs; assumption.
  - unfold handle_endtag. destruct (is_skip_tag t).
    + destruct (top_is (skip_stack p) t); fields;
        (split; [|assumption]); [now apply Forall_removelast | assumption].
    + destruct (top_is (exclude_stack p) t);
        split; split_ifs; try assumption; now apply Forall_removelast.
  - rewrite data_skip_stack, data_exclude_stack. now split.
Qed.

(** X17: the skip stack only ever holds [script] and [style], and the
    exclude stack only the eight tag names that can open an exclude
    region; [script] and [style] are never on the exclude stack. *)
Theorem stacks_hold_their_own_tags : forall evs,
  Forall (fun t => is_skip_tag t = true) (skip_stack (feed evs))
  /\ Forall (fun t => In t EXCLUDING_TAGS /\ is_skip_tag t = false)
       (exclude_stack (feed evs)).
Proof.
  intro evs.
  assert (H : Forall (fun t => is_skip_tag t = true) (skip_stack (feed evs))
              /\ Forall (fun t => In t EXCLUDING_TAGS)
                   (exclude_stack (feed evs))).
  { unfold feed.
    assert (H0 : Forall (fun t => is_skip_tag t = true)
                   (skip_stack new_parser)
                 /\ Forall (fun t => In t EXCLUDING_TAGS)
                      (exclude_stack new_parser))
      by (split; constructor).
    revert H0. generalize new_parser.
    induction evs as [|e evs IH]; intros p [Hs He]; [now split|].
    rewrite run_cons. apply IH. now apply stacks_step. }
  destruct H as [Hs He]. split; [exact Hs|].
  eapply Forall_impl; [|exact He]. intros t Ht. split; [exact Ht|].
  unfold EXCLUDING_TAGS in Ht.
  repeat (destruct Ht as [<-|Ht]; [reflexivity|]). contradiction.
Qed.

(** X18: the content depth never goes below zero, and the content flag
    is set exactly when the depth is positive. *)
Theorem content_depth_tracks_flag : forall evs,
  (0 <= content_div_depth (feed evs))%Z
  /\ (in_content (feed evs) = true
      <-> (0 < content_div_depth (feed evs))%Z).
Proof. intro evs. apply depth_consistent_feed. Qed.

(** ** Exclude regions *)

Lemma exclude_kept_without_end : forall t evs p,
  no_end_tag t evs = true ->
  1 <= occ t (exclude_stack p) ->
  nonempty (exclude_stack (run p evs)) = true.
Proof.
  intros t evs. induction evs as [|e evs IH]; intros p Hno Hocc.
  - simpl. now apply occ_nonempty with t.
  - simpl in Hno. apply andb_true_iff in Hno. destruct Hno as [He Hno].
    rewrite run_cons. apply IH; [exact Hno|].
    destruct e as [t' a|t'|d]; cbn [handle].
    + destruct (start_exclude_stack p t' a) as [-> | ->]; [exact Hocc|].
      pose proof (occ_push_le t t' (exclude_stack p)). lia.
    + destruct (end_exclude_stack p t') as [-> | [Htop ->]]; [exact Hocc|].
      apply negb_true_iff, str_eqb_neq in He.
      now rewrite (occ_pop_other _ Htop He).
    + now rewrite data_exclude_stack.
Qed.

(** X19: once a start tag has opened an exclude region, text is dropped
    at least until the first end tag of the same name: a text event that
    arrives before any such end tag leaves the parser as if the text were
    absent. *)
Theorem excluded_text_dropped_until_end_tag :
  forall t a pre mid data post,
    is_skip_tag t = false ->
    is_excluded t a = true ->
    no_end_tag t mid = true ->
    feed (pre ++ StartTag t a :: mid ++ Data data :: post)
    = feed (pre ++ StartTag t a :: mid ++ post).
Proof.
  intros t a pre mid data post Hskip Hex Hno. unfold feed.
  rewrite !run_app, !run_cons, !run_app, run_cons. cbn [handle].
  rewrite data_in_exclude; [reflexivity|].
  apply exclude_kept_without_end with t; [exact Hno|].
  unfold handle_starttag. rewrite Hskip, Hex. fields.
  rewrite occ_push_same. lia.
Qed.

Lemma excluded_text_dropped_until_end_tag_witness :
  feed ([] ++ StartTag Tag.div [(Attr.class, Some (lit "navbox"))]
           :: [StartTag Tag.p []] ++ Data (lit "links") :: [EndTag Tag.p])
  = feed ([] ++ StartTag Tag.div [(Attr.class, Some (lit "navbox"))]
             :: [StartTag Tag.p []] ++ [EndTag Tag.p]).
Proof.
  apply (@excluded_text_dropped_until_end_tag Tag.div
           [(Attr.class, Some (lit "navbox"))] [] [StartTag Tag.p []]
           (lit "links") [EndTag Tag.p]); reflexivity.
Defined.

(** X20: for the tags excluded whatever their attributes ([nav],
    [footer], [aside], [table]) the exclude region nests: text is dropped
    up to the end tag that closes the element, inner elements of the same
    name included. *)
Theorem container_regions_nest : forall t a pre mid data post,
  is_container_tag t = true ->
  stays_inside t 0 mid = true ->
  feed (pre ++ StartTag t a :: mid ++ Data data :: post)
  = feed (pre ++ StartTag t a :: mid ++ post).
Proof. intros. now apply container_text_dropped. Qed.

Lemma container_regions_nest_witness :
  feed ([] ++ StartTag Tag.nav []
           :: [StartTag Tag.nav []; EndTag Tag.nav; StartTag Tag.p []]
              ++ Data (lit "menu") :: [EndTag Tag.p; EndTag Tag.nav])
  = feed ([] ++ StartTag Tag.nav []
             :: [StartTag Tag.nav []; EndTag Tag.nav; StartTag Tag.p []]
                ++ [EndTag Tag.p; EndTag Tag.nav]).
Proof.
  apply (@container_regions_nest Tag.nav [] []
           [StartTag Tag.nav []; EndTag Tag.nav; StartTag Tag.p []]
           (lit "menu") [EndTag Tag.p; EndTag Tag.nav]); reflexivity.
Defined.

(** ** Title and paragraph text *)

Lemma start_title : forall p a,
  handle_starttag p Tag.title a = set_in_title true p.
Proof. intros p a. reflexivity. Qed.

(** X21: text that directly follows a [title] start tag, outside skip and
    exclude regions, goes to the title and not to the body, whatever else
    is open at that point. *)
Theorem title_text_goes_to_title : forall pre a data,
  skip_stack (feed pre) = [] ->
  exclude_stack (feed pre) = [] ->
  strip data <> [] ->
  title_parts (feed (pre ++ [StartTag Tag.title a; Data data]))
  = title_parts (feed pre) ++ [strip data]
  /\ paras (feed (pre ++ [StartTag Tag.title a; Data data]))
     = paras (feed pre).
Proof.
  intros pre a data Hs He Hd. unfold feed in *.
  rewrite run_app, !run_cons. cbn [handle run fold_left].
  rewrite start_title. unfold handle_data. fields. rewrite Hs, He. simpl.
  destruct (strip data); [contradiction|]. now split.
Qed.

Lemma title_text_goes_to_title_witness :
  title_parts
    (feed ([StartTag Tag.p []]
           ++ [StartTag Tag.title []; Data (lit " Seoul ")]))
  = title_parts (feed [StartTag Tag.p []]) ++ [strip (lit " Seoul ")].
Proof.
  apply (@title_text_goes_to_title [StartTag Tag.p []] [] (lit " Seoul "));
    [reflexivity | reflexivity | vm_compute; discriminate].
Defined.

Lemma start_p : forall p a,
  in_scope p = true -> exclude_stack p = [] ->
  handle_starttag p Tag.p a = set_in_p true p.
Proof.
  intros p a Hsc He. unfold handle_starttag. simpl is_skip_tag.
  cbv iota. unfold is_excluded. simpl exclude_arm_of. cbv iota.
  simpl str_eqb. cbv iota. rewrite Hsc, He. reflexivity.
Qed.

(** X22: text that directly follows a [p] start tag, outside skip and
    exclude regions and outside a title, is collected into the body,
    whether or not a content container is open at that point. *)
Theorem paragraph_text_goes_to_body : forall pre a data,
  skip_stack (feed pre) = [] ->
  exclude_stack (feed pre) = [] ->
  in_title (feed pre) = false ->
  strip data <> [] ->
  paras (feed (pre ++ [StartTag Tag.p a; Data data]))
  = paras (feed pre) ++ [strip data]
  /\ title_parts (feed (pre ++ [StartTag Tag.p a; Data data]))
     = title_parts (feed pre).
Proof.
  intros pre a data Hs He Ht Hd.
  pose proof (in_scope_always pre) as Hsc. unfold feed in *.
  rewrite run_app, !run_cons. cbn [handle run fold_left].
  rewrite start_p by assumption. unfold handle_data. fields.
  rewrite Hs, He, Ht. simpl.
  destruct (strip data); [contradiction|].
  unfold in_scope in *. fields. rewrite Hsc. now split.
Qed.

Lemma paragraph_text_goes_to_body_witness :
  paras (feed ([] ++ [StartTag Tag.p []; Data (lit "prose")]))
  = paras (feed []) ++ [strip (lit "prose")].
Proof.
  apply (@paragraph_text_goes_to_body [] [] (lit "prose"));
    [reflexivity | reflexivity | reflexivity | vm_compute; discriminate].
Defined.

(** ** Attributes *)

Lemma existsb_const_false : forall (A : Type) (l : list A),
  existsb (fun _ => false) l = false.
Proof. intros A l. induction l; simpl; auto. Qed.

(** X23: [_has_any_class] holds exactly when [_has_class] holds for one
    of the names, and both are false when the tag has no [class]
    attribute or an empty one. *)
Theorem has_any_class_is_some_has_class : forall a names,
  has_any_class a names = existsb (has_class a) names
  /\ (get_attr a Attr.class = [] ->
      has_any_class a names = false
      /\ forall name, has_class a name = false).
Proof.
  intros a names. unfold has_any_class, has_class. split.
  - destruct (get_attr a Attr.class); [|reflexivity].
    simpl. symmetry. apply existsb_const_false.
  - intros ->. now split.
Qed.

(** ** Documents and batches *)

(** X24: a result carries the URL it was asked for.  It is marked [ok]
    exactly when the page was fetched and tokenized and its body is not
    empty, and then it holds the extracted title, the keywords joined by
    a comma and a space, the summary and the frequency table of that
    body; a result that is not [ok] has no keywords and an empty table. *)
Theorem process_one_result :
  forall (fetch_html : str -> outcome str)
         (html_events : str -> outcome (list event))
         (url : str) (max_sentences topk : Z) (r : result),
  process_one fetch_html html_events url max_sentences topk = Ret r ->
  r_url r = url
  /\ (r_ok r = true <->
      exists html evs,
        fetch_html url = Ret html /\ html_events html = Ret evs
        /\ get_text (feed evs) <> [])
  /\ (forall html evs,
        fetch_html url = Ret html -> html_events html = Ret evs ->
        get_text (feed evs) <> [] ->
        r = mkResult url (get_title (feed evs))
              (join (lit ", ")
                 (fst (keyword_topk (get_text (feed evs)) topk)))
              (summarize (get_text (feed evs)) max_sentences) true
              (snd (keyword_topk (get_text (feed evs)) topk)))
  /\ (r_ok r = false -> r_keywords r = [] /\ r_freq r = []).
Proof.
  intros fetch_html html_events url n k r H. unfold process_one in H.
  destruct (fetch_html url) as [html|e] eqn:Ef; cbn [bind try_except] in H.
  - destruct (html_events html) as [evs|e] eqn:Ee;
      cbn [bind try_except] in H.
    + destruct (get_text (feed evs)) as [|c body] eqn:Eb;
        cbn [try_except] in H.
      * injection H as <-. cbn [r_url r_ok r_keywords r_freq].
        split; [reflexivity|]. split; [split|split].
        -- discriminate.
        -- intros (h & ev & Hh & Hev & Hne). injection Hh as <-.
           rewrite Ee in Hev. injection Hev as <-. contradiction.
        -- intros h ev Hh Hev Hne. injection Hh as <-.
           rewrite Ee in Hev. injection Hev as <-. contradiction.
        -- now split.
      * unfold keyword_topk in H. cbn [try_except] in H.
        injection H as <-. cbn [r_url r_ok r_keywords r_freq].
        split; [reflexivity|]. split; [split|split].
        -- intros _. exists html, evs. rewrite Eb.
           split; [reflexivity|]. split; [exact Ee | discriminate].
        -- reflexivity.
        -- intros h ev Hh Hev Hne. injection Hh as <-.
           rewrite Ee in Hev. injection Hev as <-. rewrite Eb.
           reflexivity.
        -- discriminate.
    + injection H as <-. cbn [r_url r_ok r_keywords r_freq].
      split; [reflexivity|]. split; [split|split].
      * discriminate.
      * intros (h & ev & Hh & Hev & _). injection Hh as <-.
        rewrite Ee in Hev. discriminate.
      * intros h ev Hh Hev _. injection Hh as <-.
        rewrite Ee in Hev. discriminate.
      * now split.
  - injection H as <-. cbn [r_url r_ok r_keywords r_freq].
    split; [reflexivity|]. split; [split|split].
    + discriminate.
    + intros (h & ev & Hh & _). discriminate.
    + intros h ev Hh. discriminate.
    + now split.
Qed.

Lemma process_one_result_witness :
  r_url
    (mkResult (lit "http://example.com/") [] []
       (error_marker (lit "timed out")) false [])
  = lit "http://example.com/".
Proof.
  exact (proj1 (@process_one_result
                  (fun _ => Raise (lit "timed out")) (fun _ => Ret [])
                  (lit "http://example.com/") 3 5 _ eq_refl)).
Defined.

Lemma process_one_returns : forall fetch_html html_events url n k,
  exists r, process_one fetch_html html_events url n k = Ret r
            /\ r_url r = url /\ NoDup (keys (r_freq r)).
Proof.
  intros fetch_html html_events url n k. unfold process_one.
  destruct (fetch_html url) as [html|e]; cbn [bind try_except].
  - destruct (html_events html) as [evs|e]; cbn [bind try_except].
    + destruct (get_text (feed evs)) as [|c body]; cbn [try_except].
      * eexists. split; [reflexivity|]. split; [reflexivity|constructor].
      * unfold keyword_topk. cbn [try_except]. eexists.
        split; [reflexivity|]. split; [reflexivity|]. apply Counter_keys.
    + eexists. split; [reflexivity|]. split; [reflexivity|constructor].
  - eexists. split; [reflexivity|]. split; [reflexivity|constructor].
Qed.

Lemma process_all_returns : forall fetch_html html_events n k urls,
  exists rs,
    process_all fetch_html html_events urls n k = Ret rs
    /\ List.map r_url rs = urls
    /\ Forall (fun r => NoDup (keys (r_freq r))) rs.
Proof.
  intros fetch_html html_events n k urls. unfold process_all.
  induction urls as [|u urls IH].
  - exists []. repeat split. constructor.
  - destruct IH as (rs & Ers & Hu & Hnd).
    destruct (process_one_returns fetch_html html_events u n k)
      as (r & Er & Hr & Hd).
    exists (r :: rs). cbn [map_outcome]. rewrite Er. cbn [bind].
    rewrite Ers. cbn [bind]. split; [reflexivity|]. split.
    + simpl. now rewrite Hr, Hu.
    + now constructor.
Qed.

(** X25: processing a list of URLs never raises and gives exactly one
    result per URL, in the order of the list, whatever happens to the
    individual documents. *)
Theorem process_all_one_result_per_url :
  forall (fetch_html : str -> outcome str)
         (html_events : str -> outcome (list event))
         (urls : list str) (max_sentences topk : Z),
  exists rs,
    process_all fetch_html html_events urls max_sentences topk = Ret rs
    /\ List.map r_url rs = urls.
Proof.
  intros fetch_html html_events urls n k.
  destruct (process_all_returns fetch_html html_events n k urls)
    as (rs & E & Hu & _).
  now exists rs.
Qed.

Lemma counter_get_set : forall c w n w',
  counter_get (counter_set c w n) w'
  = if str_eqb w w' then n else counter_get c w'.
Proof.
  induction c as [|[k m] c IH]; intros w n w'; simpl.
  - reflexivity.
  - destruct (str_eqb k w) eqn:Ek; simpl.
    + apply str_eqb_eq in Ek. subst k. now destruct (str_eqb w w').
    + destruct (str_eqb k w') eqn:Ek'.
      * apply str_eqb_eq in Ek'. subst k. now rewrite (str_eqb_sym w w'), Ek.
      * apply IH.
Qed.

Lemma counter_get_update_fold : forall other total w,
  NoDup (keys other) ->
  counter_get
    (fold_left
       (fun t (it : str * Z) =>
          counter_set t (fst it) (snd it + counter_get t (fst it))%Z)
       other total) w
  = (counter_get total w + counter_get other w)%Z.
Proof.
  induction other as [|[k n] other IH]; intros total w Hnd; simpl;
    [lia|].
  inversion Hnd as [|? ? Hk Hrest]; subst.
  rewrite IH by assumption. rewrite counter_get_set.
  destruct (str_eqb k w) eqn:E.
  - apply str_eqb_eq in E. subst k.
    rewrite (counter_get_missing _ _ Hk). lia.
  - reflexivity.
Qed.

Lemma counter_get_update : forall total other w,
  NoDup (keys other) ->
  counter_get (counter_update total other) w
  = (counter_get total w + counter_get other w)%Z.
Proof.
  intros total other w Hnd. unfold counter_update.
  destruct total as [|it total]; [reflexivity|].
  now apply counter_get_update_fold.
Qed.

Lemma total_frequencies_fold : forall rs acc w,
  Forall (fun r => NoDup (keys (r_freq r))) rs ->
  counter_get
    (fold_left (fun total r => counter_update total (r_freq r)) rs acc) w
  = (counter_get acc w
     + sum_Z (List.map (fun r => counter_get (r_freq r) w) rs))%Z.
Proof.
  induction rs as [|r rs IH]; intros acc w H; simpl; [lia|].
  inversion H as [|? ? Hr Hrs]; subst.
  rewrite IH by assumption. rewrite counter_get_update by assumption. lia.
Qed.

(** X26: in the table of total frequencies a word has the sum of the
    counts it has in the tables of the results of the batch. *)
Theorem total_frequencies_add_up :
  forall (fetch_html : str -> outcome str)
         (html_events : str -> outcome (list event))
         (urls : list str) (max_sentences topk : Z) (rs : list result)
         (w : str),
  process_all fetch_html html_events urls max_sentences topk = Ret rs ->
  counter_get (total_frequencies rs) w
  = sum_Z (List.map (fun r => counter_get (r_freq r) w) rs).
Proof.
  intros fetch_html html_events urls n k rs w H.
  destruct (process_all_returns fetch_html html_events n k urls)
    as (rs' & E & _ & Hnd).
  rewrite E in H. injection H as <-.
  unfold total_frequencies. now rewrite total_frequencies_fold.
Qed.

Lemma total_frequencies_add_up_witness :
  process_all sample_fetch sample_tokenizer sample_urls 3 5
  = Ret sample_results
  /\ List.map r_ok sample_results = [true; true; false]
  /\ counter_get (total_frequencies sample_results) (lit "cats")
     = sum_Z
         (List.map (fun r => counter_get (r_freq r) (lit "cats"))
            sample_results)
  /\ sum_Z
       (List.map (fun r => counter_get (r_freq r) (lit "cats"))
          sample_results) = 3%Z.
Proof.
  assert (H : process_all sample_fetch sample_tokenizer sample_urls 3 5
              = Ret sample_results) by (vm_compute; reflexivity).
  split; [exact H|]. split; [vm_compute; reflexivity|].
  split; [|vm_compute; reflexivity].
  exact (@total_frequencies_add_up sample_fetch sample_tokenizer
           sample_urls 3 5 sample_results (lit "cats") H).
Defined.

(** ** The URL list *)

Lemma splitlines_aux_lines : forall n t cur l,
  List.length t <= n ->
  Forall (fun c => is_linebreak c = false) cur ->
  In l (splitlines_aux cur t) ->
  Forall (fun c => is_linebreak c = false) l.
Proof.
  induction n as [|n IH]; intros t cur l Hn Hcur Hl.
  - destruct t; [|simpl in Hn; lia]. simpl in Hl.
    destruct cur; [contradiction|]. destruct Hl as [<-|[]].
    now apply Forall_rev.
  - destruct t as [|c rest].
    + simpl in Hl. destruct cur; [contradiction|]. destruct Hl as [<-|[]].
      now apply Forall_rev.
    + simpl in Hn. cbn [splitlines_aux] in Hl.
      destruct (is_linebreak c) eqn:Ec.
      * destruct Hl as [<-|Hl]; [now apply Forall_rev|].
        destruct rest as [|d rest'].
        -- contradiction.
        -- destruct (N.eqb c 13 && N.eqb d 10).
           ++ apply (IH rest' [] l); [simpl in Hn; lia | constructor | exact Hl].
           ++ apply (IH (d :: rest') [] l); [lia | constructor | exact Hl].
      * apply (IH rest (c :: cur) l); [lia | now constructor | exact Hl].
Qed.

Lemma infix_Forall : forall (P : char -> Prop) s t,
  infix s t -> Forall P t -> Forall P s.
Proof.
  intros P s t (a & b & ->) H. apply Forall_app in H. destruct H as [_ H].
  apply Forall_app in H. tauto.
Qed.

(** X27: every URL read from the text area is non-empty, has no
    whitespace at either end, holds no line break and does not start with
    a hash sign. *)
Theorem parse_urls_entries : forall urls_text u,
  In u (parse_urls urls_text) ->
  u <> []
  /\ strip u = u
  /\ starts_with_hash u = false
  /\ Forall (fun c => is_linebreak c = false) u.
Proof.
  intros text u H. unfold parse_urls in H.
  apply in_map_iff in H. destruct H as (l & <- & Hl).
  apply filter_In in Hl. destruct Hl as [Hl Hkeep].
  apply andb_true_iff in Hkeep. destruct Hkeep as [Hne Hhash].
  split; [|split; [|split]].
  - intro E. rewrite E in Hne. discriminate.
  - apply strip_idem.
  - now apply negb_true_iff.
  - apply infix_Forall with l; [apply strip_infix|].
    unfold splitlines in Hl.
    eapply splitlines_aux_lines; [apply Nat.le_refl | constructor | exact Hl].
Qed.

Lemma parse_urls_entries_witness :
  parse_urls sample_url_list = [lit "http://a"; lit "http://b"]
  /\ strip (lit "http://a") = lit "http://a".
Proof.
  assert (E : parse_urls sample_url_list = [lit "http://a"; lit "http://b"])
    by (vm_compute; reflexivity).
  split; [exact E|].
  apply (@parse_urls_entries sample_url_list (lit "http://a")).
  rewrite E. now left.
Defined.

(** ** The response encoding *)

Lemma matches_equals_sign : forall c,
  matches_ci 61%N c = true -> c = 61%N.
Proof.
  intros c H. unfold matches_ci, lower_char in H. change (N.eqb 61 115) with false in H.
  rewrite andb_false_l, orb_false_r in H.
  destruct ((65 <=? c) && (c <=? 90))%N eqn:E.
  - apply andb_true_iff in E. destruct E as [E1 E2].
    apply N.leb_le in E1, E2. apply N.eqb_eq in H. lia.
  - now apply N.eqb_eq in H.
Qed.

Lemma after_prefix_ci_equals : forall pat t after,
  after_prefix_ci pat t = Some after -> In 61%N pat -> In 61%N t.
Proof.
  induction pat as [|p pat IH]; intros t after H Hin; [contradiction|].
  destruct t as [|c t]; [discriminate|]. simpl in H.
  destruct (matches_ci p c) eqn:Em; [|discriminate].
  destruct Hin as [->|Hin].
  - left. now apply matches_equals_sign.
  - right. now apply IH with after.
Qed.

Lemma charset_search_found : forall ct enc,
  charset_search ct = Some enc ->
  enc <> [] /\ forallb is_charset_char enc = true /\ In 61%N ct.
Proof.
  induction ct as [|c ct IH]; intros enc H; [discriminate|].
  cbn [charset_search] in H.
  assert (Hrec : charset_search ct = Some enc ->
            enc <> [] /\ forallb is_charset_char enc = true
            /\ In 61%N (c :: ct)).
  { intro Hr. destruct (IH _ Hr) as (H1 & H2 & H3).
    repeat split; [exact H1 | exact H2 | now right]. }
  destruct (after_prefix_ci (lit "charset=") (c :: ct)) as [after|] eqn:Ea;
    [|now apply Hrec].
  destruct (span_len is_charset_char after) as [|n] eqn:Es;
    [now apply Hrec|].
  pose proof (span_len_forallb is_charset_char after) as Hall.
  rewrite Es in Hall.
  assert (Hne : firstn (S n) after <> [])
    by (destruct after; [discriminate Es | discriminate]).
  injection H as <-. split; [exact Hne|]. split; [exact Hall|].
  - apply after_prefix_ci_equals with (lit "charset=") after;
      [exact Ea | simpl; tauto].
Qed.

(** X28: the encoding chosen for a response is never empty and holds no
    whitespace and no semicolon; it is utf-8 when the [Content-Type]
    header holds no equals sign, in particular when it is empty. *)
Theorem response_encoding_wellformed : forall ct,
  response_encoding ct <> []
  /\ forallb is_charset_char (response_encoding ct) = true
  /\ (~ In 61%N ct -> response_encoding ct = lit "utf-8").
Proof.
  intro ct. unfold response_encoding.
  destruct (charset_search ct) as [enc|] eqn:E.
  - destruct (charset_search_found _ E) as (H1 & H2 & H3).
    split; [exact H1|]. split; [exact H2|]. intro Hno. contradiction.
  - split; [discriminate|]. split; reflexivity.
Qed.
